(** * Verification of the Playwright custom e-mail reporter

    Source: [src/failed-report.ts].  The file holds two reporters with the
    same class name: the failures-only reporter (first half, module
    [FailedReport] below) and the full-run reporter (second half, module
    [FullReport]).  The helpers [stripAnsiCodes] and [extractDataFromTags]
    are textually identical in both halves and are embedded once. *)

From Stdlib Require Import NArith String Ascii.
From stdpp Require Import base list gmap sorting.

Local Open Scope N_scope.

(** ** JavaScript strings

    A JavaScript string is a sequence of UTF-16 code units; a code unit is
    modelled by its number. *)

Abbreviation char := N.
Abbreviation str := (list N).

(** [lit] turns a literal of the source into its code units (all literals
    used by the parsing code are ASCII). *)
Fixpoint lit (s : string) : str :=
  match s with
  | EmptyString => []
  | String a s' => N_of_ascii a :: lit s'
  end.

(** [s.startsWith(pat)] *)
Fixpoint startsWith (s pat : str) {struct pat} : bool :=
  match pat, s with
  | [], _ => true
  | p :: pat', c :: s' => (c =? p) && startsWith s' pat'
  | _ :: _, [] => false
  end.

(** [s.includes(pat)] *)
Fixpoint includes (s pat : str) : bool :=
  startsWith s pat ||
  match s with
  | [] => false
  | _ :: s' => includes s' pat
  end.

(** [s.slice(n)] for a non-negative [n] *)
Definition slice (n : nat) (s : str) : str := drop n s.

(** [s.split(sep)] for a separator of one code unit *)
Fixpoint split (sep : char) (s : str) : list str :=
  match s with
  | [] => [[]]
  | c :: s' =>
      if c =? sep then [] :: split sep s'
      else match split sep s' with
           | h :: t => (c :: h) :: t
           | [] => [[c]]
           end
  end.

(** [s.replace(pat, rep)] with a string pattern: only the first occurrence
    is replaced. *)
Fixpoint replace (s pat rep : str) : str :=
  if startsWith s pat then rep ++ drop (length pat) s
  else match s with
       | [] => []
       | c :: s' => c :: replace s' pat rep
       end.

(** White space of [String.prototype.trim] and of the class [\s]:
    WhiteSpace and LineTerminator code units. *)
Definition is_space (c : char) : bool :=
  (c =? 9) || (c =? 10) || (c =? 11) || (c =? 12) || (c =? 13) || (c =? 32)
  || (c =? 160) || (c =? 5760) || ((8192 <=? c) && (c <=? 8202))
  || (c =? 8232) || (c =? 8233) || (c =? 8239) || (c =? 8287)
  || (c =? 12288) || (c =? 65279).

Fixpoint trimStart (s : str) : str :=
  match s with
  | c :: s' => if is_space c then trimStart s' else s
  | [] => []
  end.

Definition trimEnd (s : str) : str := rev (trimStart (rev s)).

(** [s.trim()] *)
Definition trim (s : str) : str := trimEnd (trimStart s).

(** [x < y] on strings: code units are compared in order, and a proper
    prefix is smaller. *)
Fixpoint str_ltb (x y : str) : bool :=
  match x, y with
  | _, [] => false
  | [], _ :: _ => true
  | a :: x', b :: y' => (a <? b) || ((a =? b) && str_ltb x' y')
  end.

(** The order of [Array.prototype.sort] without a comparator, on an array
    of strings: [x] may come before [y] when [y < x] is false. *)
Definition str_le (x y : str) : Prop := str_ltb y x = false.

#[global] Instance str_le_dec (x y : str) : Decision (str_le x y).
Proof. unfold str_le. apply _. Defined.

(** [xs.sort()]: the sort is stable. *)
Definition sort (xs : list str) : list str := merge_sort str_le xs.

(** ** Regular expressions

    The fragment of JavaScript regular expressions the reporter uses,
    with the backtracking semantics of the language: alternatives are tried
    left to right, quantifiers are greedy and give back one code unit at a
    time.  Quantified sub-patterns are character classes in every pattern
    of the source, and each pattern has at most one capturing group. *)

Inductive regex : Type :=
| Eps                             (* the empty pattern *)
| Cls (p : char -> bool)          (* one code unit of a class *)
| Seq (r1 r2 : regex)             (* r1 r2 *)
| Alt (r1 r2 : regex)             (* r1 | r2 *)
| Opt (r : regex)                 (* (?: r )? *)
| Star (p : char -> bool)         (* [class]* *)
| Plus (p : char -> bool)         (* [class]+ *)
| Group (r : regex).              (* ( r ) *)

(** The outcome of a match: the captured group (if it took part) and the
    input left after the match. *)
Definition matched : Type := option str * str.

(** Greedy iteration of a class, then the continuation; on failure of the
    continuation the last code unit is given back. *)
Fixpoint star (p : char -> bool) (s : str) (k : str -> option matched)
  : option matched :=
  match s with
  | c :: s' =>
      if p c then
        match star p s' k with
        | Some m => Some m
        | None => k s
        end
      else k s
  | [] => k []
  end.

Fixpoint rmatch (r : regex) (s : str) (cap : option str)
    (k : str -> option str -> option matched) : option matched :=
  match r with
  | Eps => k s cap
  | Cls p =>
      match s with
      | c :: s' => if p c then k s' cap else None
      | [] => None
      end
  | Seq r1 r2 => rmatch r1 s cap (fun s1 cap1 => rmatch r2 s1 cap1 k)
  | Alt r1 r2 =>
      match rmatch r1 s cap k with
      | Some m => Some m
      | None => rmatch r2 s cap k
      end
  | Opt r1 =>
      match rmatch r1 s cap k with
      | Some m => Some m
      | None => k s cap
      end
  | Star p => star p s (fun s' => k s' cap)
  | Plus p =>
      match s with
      | c :: s' => if p c then star p s' (fun s'' => k s'' cap) else None
      | [] => None
      end
  | Group r1 =>
      rmatch r1 s cap
        (fun s' _ => k s' (Some (take (length s - length s') s)))
  end.

(** One match attempt at the start of [s]. *)
Definition exec (r : regex) (s : str) : option matched :=
  rmatch r s None (fun s' cap => Some (cap, s')).

(** A global scan ([g] flag) cuts the input into the code units outside
    any match and the successive matches, found left to right; after a
    match the scan resumes where the match ended.  [skip] counts the code
    units still covered by the last match. *)
Inductive token : Type :=
| Lit (c : char)
| Hit (whole : str) (cap : option str).

Fixpoint scan (r : regex) (skip : nat) (s : str) : list token :=
  match s with
  | [] =>
      match skip, exec r [] with
      | O, Some (cap, _) => [Hit [] cap]
      | _, _ => []
      end
  | c :: s' =>
      match skip with
      | S n => scan r n s'
      | O =>
          match exec r s with
          | Some (cap, rest) =>
              match (length s - length rest)%nat with
              | O => Hit [] cap :: Lit c :: scan r 0 s'
              | S n => Hit (take (S n) s) cap :: scan r n s'
              end
          | None => Lit c :: scan r 0 s'
          end
      end
  end.

(** [Array.from(s.matchAll(r))]: the matches in order, each with its
    captured group. *)
Definition matchAll (r : regex) (s : str) : list (option str) :=
  omap (fun t => match t with Hit _ cap => Some cap | Lit _ => None end)
       (scan r 0 s).

(** [s.replace(r, rep)] for a pattern with the [g] flag. *)
Definition replaceAll (r : regex) (rep : str) (s : str) : str :=
  concat (map (fun t => match t with Hit _ _ => rep | Lit c => [c] end)
              (scan r 0 s)).

(** [s.replace(r, rep)] for a pattern without [g] that starts with [^]:
    the pattern can only match at index 0. *)
Definition replaceAtStart (r : regex) (rep : str) (s : str) : str :=
  match exec r s with
  | Some (_, rest) => rep ++ rest
  | None => s
  end.

(** Character classes *)
Definition is_char (a : ascii) (c : char) : bool := c =? N_of_ascii a.
Definition is_digit (c : char) : bool := (48 <=? c) && (c <=? 57).
Definition is_upper (c : char) : bool := (65 <=? c) && (c <=? 90).
Definition is_lower (c : char) : bool := (97 <=? c) && (c <=? 122).
Definition is_letter (c : char) : bool := is_lower c || is_upper c.
Definition is_param (c : char) : bool := is_digit c || (c =? 59).
Definition not_newline (c : char) : bool := negb (c =? 10).

(** Case-insensitive comparison ([i] flag, no [u] flag): code units are
    compared after canonicalisation to upper case; a code unit outside
    ASCII never canonicalises to an ASCII one. *)
Definition canonicalize (c : char) : char := if is_lower c then c - 32 else c.
Definition is_char_ci (a : ascii) (c : char) : bool :=
  canonicalize c =? canonicalize (N_of_ascii a).

(** A literal word of a pattern; [cls] compares one code unit with one
    character of the word, with or without the [i] flag. *)
Fixpoint word (cls : ascii -> char -> bool) (w : string) : regex :=
  match w with
  | EmptyString => Eps
  | String a w' => Seq (Cls (cls a)) (word cls w')
  end.

(** ** Helpers shared by the two reporters *)

(** [/\x1B\[[0-9;]*[a-zA-Z]/g] *)
Definition ansi_re : regex :=
  Seq (Cls (N.eqb 27))
      (Seq (Cls (is_char "["))
           (Seq (Star is_param) (Cls is_letter))).

(** [function stripAnsiCodes(str)] *)
Definition stripAnsiCodes (s : str) : str := replaceAll ansi_re [] s.

(** [/Expected(?: value)?:\s*([^\n]+)/gi] *)
Definition expected_re : regex :=
  Seq (word is_char_ci "Expected")
      (Seq (Opt (word is_char_ci " value"))
           (Seq (Cls (is_char_ci ":"))
                (Seq (Star is_space) (Group (Plus not_newline))))).

(** [/(?:Received|Actual):\s*([^\n]+)/gi] *)
Definition actual_re : regex :=
  Seq (Alt (word is_char_ci "Received") (word is_char_ci "Actual"))
      (Seq (Cls (is_char_ci ":"))
           (Seq (Star is_space) (Group (Plus not_newline)))).

(** [/^@(local|locale):/], the anchor being handled by [replaceAtStart] *)
Definition local_re : regex :=
  Seq (Cls (is_char "@"))
      (Seq (Group (Alt (word is_char "local") (word is_char "locale")))
           (Cls (is_char ":"))).

(** [x || d] on a possibly undefined string: the empty string is falsy. *)
Definition or_else (x : option str) (d : str) : str :=
  match x with
  | Some (c :: s) => c :: s
  | Some [] | None => d
  end.

(** ** The tag grammar parser *)

Module Tags.

(** A value of [customTags]: [string | string[]]. *)
Inductive tag_value : Type :=
| Scalar (v : str)
| Multi (vs : list str).

(** [customTags] starts as the object literal [{}]: its own properties are
    a finite map, and it inherits from [Object.prototype]. *)
Record data : Type := Data {
  local : str;
  realm : str;
  customTags : gmap str tag_value
}.

(** The assignment [o[key] = v] on such an object.  [Object.prototype] has
    one setter, [__proto__], and it ignores a value that is neither an
    object nor null, as a string is; under any other key the assignment
    creates or overwrites an own property. *)
Definition set_prop (o : gmap str tag_value) (key : str) (v : tag_value)
  : gmap str tag_value :=
  if decide (key = lit "__proto__") then o else <[key := v]> o.

(** Lines 40-41: create the list on first use, then push.  The key
    [payment_method] never holds a string (lemma
    [payment_method_never_scalar]), so the branch of a non-empty string,
    where [push] would not exist, is never taken. *)
Definition push_payment_method (o : gmap str tag_value) (v : str)
  : gmap str tag_value :=
  match o !! lit "payment_method" with
  | Some (Multi vs) => <[lit "payment_method" := Multi (vs ++ [v])]> o
  | Some (Scalar (_ :: _)) => o
  | Some (Scalar []) | None => <[lit "payment_method" := Multi [v]]> o
  end.

(** Lines 42-45.  A tag that includes a colon splits into at least two
    parts (lemma [split_includes]), so [value] is never undefined. *)
Definition set_generic (o : gmap str tag_value) (tag : str)
  : gmap str tag_value :=
  match split 58 (slice 1 tag) with
  | key :: value :: _ => set_prop o key (Scalar value)
  | _ => o
  end.

(** The body of the loop over the tags, lines 34-45. *)
Definition step (d : data) (tag : str) : data :=
  if startsWith tag (lit "@local:") || startsWith tag (lit "@locale:") then
    Data (replaceAtStart local_re [] tag) (realm d) (customTags d)
  else if startsWith tag (lit "@realm:") then
    Data (local d) (replace tag (lit "@realm:") []) (customTags d)
  else if startsWith tag (lit "@payment_method:") then
    Data (local d) (realm d)
         (push_payment_method (customTags d)
            (replace tag (lit "@payment_method:") []))
  else if startsWith tag (lit "@") && includes tag (lit ":") then
    Data (local d) (realm d) (set_generic (customTags d) tag)
  else d.

Definition initial : data := Data (lit "N/A") (lit "N/A") ∅.

(** [function extractPaymentMethodsFromTags(tags)], lines 57-61 *)
Definition extractPaymentMethodsFromTags (tags : list str) : list str :=
  map (fun tag => replace tag (lit "@payment_method:") [])
      (filter (fun tag => startsWith tag (lit "@payment_method:") = true) tags).

(** The diagnostic of lines 49-51, with what it prints. *)
Inductive warning : Type :=
| MissingData (testTitle : str) (d : data).

(** [function extractDataFromTags(tags, testTitle)]: the parsed data and
    the warnings written to the console. *)
Definition extractDataFromTags (tags : list str) (testTitle : str)
  : data * list warning :=
  let d := fold_left step tags initial in
  (d, if bool_decide (local d = lit "N/A") || bool_decide (realm d = lit "N/A")
      then [MissingData testTitle d] else []).

End Tags.

(** ** What the test runner hands to a reporter *)

Module Playwright.

(** [TestResult.status] *)
Inductive test_status : Type :=
| passed | failed | timedOut | skipped | interrupted.

#[global] Instance test_status_eq_dec : EqDecision test_status.
Proof. solve_decision. Defined.

(** [TestError]: only [message] is read. *)
Record TestError : Type := { message : option str }.

Record Location : Type := { file : str; line : N }.

(** [TestCase], with [parent] standing for [test.parent?.title]. *)
Record TestCase : Type := {
  title : str;
  parent : option str;
  location : option Location;
  tags : list str
}.

Record TestResult : Type := {
  status : test_status;
  duration : Z;
  errors : list TestError
}.

End Playwright.

(** ** [Map<string, Array<T>>]: keys in insertion order *)

Section JsMap.
Context {V : Type}.

Fixpoint Map_get (m : list (str * V)) (k : str) : option V :=
  match m with
  | [] => None
  | (k', v) :: m' => if decide (k' = k) then Some v else Map_get m' k
  end.

Fixpoint Map_set (m : list (str * V)) (k : str) (v : V) : list (str * V) :=
  match m with
  | [] => [(k, v)]
  | (k', v') :: m' =>
      if decide (k' = k) then (k, v) :: m' else (k', v') :: Map_set m' k v
  end.

(** [Array.from(m.values())] *)
Definition Map_values (m : list (str * V)) : list V := map snd m.
End JsMap.

(** ** The error fields of one recorded error

    Lines 91-98 of the failures-only reporter and the same lines of the
    full-run reporter: the patterns run on [raw], the message as recorded;
    each captured value is trimmed and then stripped. *)

(** [m[1]] of a match *)
Definition group1 (m : option str) : str := default [] m.

Definition errorFields (error : Playwright.TestError)
  : str * list str * list str :=
  let raw := or_else (Playwright.message error) (lit "No error message") in
  let cleanedRaw := stripAnsiCodes raw in
  let expected :=
    map (fun m => stripAnsiCodes (trim (group1 m))) (matchAll expected_re raw) in
  let actual :=
    map (fun m => stripAnsiCodes (trim (group1 m))) (matchAll actual_re raw) in
  (cleanedRaw, expected, actual).


(** ** The effects of the end-of-run phase

    [onEnd] writes a file, posts to the webhook, verifies the SMTP
    connection, sends mail, sleeps and prints.  The outcome of each
    operation on the outside world is given by a [world]; what [onEnd]
    does is recorded, in order, in a trace. *)

Module Effects.

(** An error object as the catch blocks read it. *)
Record JsError : Type := {
  message : str;
  code : option str;
  response : option str;
  stack : option str
}.

(** The lines printed on the console, one constructor per message of the
    source, with the values printed along. *)
Inductive console : Type :=
| AllTestsPassed                (* line 119 *)
| NothingToReport               (* full-run reporter, early return *)
| ReportGenerated               (* after the report file is written *)
| TeamsSent                     (* line 695 *)
| TeamsError (message : str) (code : option str) (response : str)
| WebhookUrlNotDefined          (* line 704 *)
| SmtpVerified                  (* line 716 *)
| SmtpVerifyError (e : JsError) (response : str)
| EmailSent                     (* line 747 *)
| AttemptFailed (attempt : nat) (e : JsError) (response : str)
| AllAttemptsFailed.            (* line 759 *)

Inductive effect : Type :=
| Print (c : console)
| WriteFile (path content : str)
| Post (url payload : str)
| Verify
| SendMail (text html : str)
| Sleep (ms : N).

(** The outside world: the configured webhook URL and, for each
    operation, whether it fails and with what error.  [sendMail n] is the
    outcome of the [n]-th call of [transporter.sendMail], counted from 1. *)
Record world : Type := {
  WEB_HOOK_URL : option str;
  writeFileSync : str -> option JsError;
  post : option JsError;
  verify : option JsError;
  sendMail : nat -> option JsError
}.

Record run : Type := Run {
  trace : list effect;
  sends : nat
}.

(** A computation either returns or throws, and extends the trace. *)
Definition M (A : Type) : Type := world -> run -> (A + JsError) * run.

#[global] Instance M_ret : MRet M := fun A a _ r => (inl a, r).

#[global] Instance M_bind : MBind M := fun A B f c w r =>
  match c w r with
  | (inl a, r') => f a w r'
  | (inr e, r') => (inr e, r')
  end.

(** [try { c } catch (error) { h error }] *)
Definition try_catch {A} (c : M A) (h : JsError -> M A) : M A := fun w r =>
  match c w r with
  | (inl a, r') => (inl a, r')
  | (inr e, r') => h e w r'
  end.

(** [throw e] *)
Definition throw {A} (e : JsError) : M A := fun _ r => (inr e, r).

Definition emit (e : effect) : M unit := fun _ r =>
  (inl (), Run (trace r ++ [e]) (sends r)).

(** An operation that fails when the world says so. *)
Definition attempt (e : effect) (outcome : world -> option JsError) : M unit :=
  fun w r =>
    (match outcome w with None => inl () | Some err => inr err end,
     Run (trace r ++ [e]) (sends r)).

Definition print (c : console) : M unit := emit (Print c).

Definition fs_writeFileSync (path content : str) : M unit :=
  attempt (WriteFile path content) (fun w => writeFileSync w path).

Definition axios_post (url payload : str) : M unit :=
  attempt (Post url payload) post.

Definition transporter_verify : M unit := attempt Verify verify.

Definition transporter_sendMail (text html : str) : M unit := fun w r =>
  (match sendMail w (S (sends r)) with None => inl () | Some err => inr err end,
   Run (trace r ++ [SendMail text html]) (S (sends r))).

Definition setTimeout (ms : N) : M unit := emit (Sleep ms).

Definition webhookUrl : M (option str) := fun w r => (inl (WEB_HOOK_URL w), r).

End Effects.

(** ** The failures-only reporter (first half of the file) *)

Module FailedReport.
Import Playwright Effects.

Record entry : Type := Entry {
  title : str;
  location : str;
  duration : Z;
  rawError : str;
  expected : list str;
  actual : list str;
  tags : list str;
  local : str;
  realm : str;
  customTags : gmap str Tags.tag_value
}.

(** [function extractTags(test)] *)
Definition extractTags (test : TestCase) : list str :=
  match Playwright.tags test with
  | [] => [lit "No tags"]
  | t :: ts => t :: ts
  end.

(** Lines 131-134: the keys of the custom tags of the entries of one
    group, collected in a [Set]. *)
Definition customTagKeys (tests : list entry) : gset str :=
  fold_left (fun keys t => keys ∪ dom (customTags t)) tests ∅.

(** Lines 129-136.  [customTagKeysByDescribe] is an object literal used
    as a map from the describe names to the [Set]s of line 131.  Its own
    properties are a finite map; its prototype is [Object.prototype]
    ([proto] is [None]) until an assignment reaches the [__proto__] setter
    inherited from [Object.prototype], which makes the assigned [Set] the
    prototype. *)
Record describe_keys : Type := DescribeKeys {
  own : gmap str (gset str);
  proto : option (gset str)
}.

(** Line 135: [customTagKeysByDescribe[describeName] = customTagKeys], in
    the strict code of a class body; [None] stands for a thrown TypeError.
    An own property is overwritten.  Otherwise the prototype chain decides:
    [__proto__] is the accessor of [Object.prototype], and its setter
    replaces the prototype by the assigned object; when the prototype is a
    [Set], [size] is the accessor of [Set.prototype], which has a getter
    only, and the assignment throws; every other property of [Set.prototype]
    and of [Object.prototype] is a writable data property, so that the
    assignment creates an own property. *)
Definition assign (o : describe_keys) (describeName : str)
    (customTagKeys : gset str) : option describe_keys :=
  if decide (is_Some (own o !! describeName)) then
    Some (DescribeKeys (<[describeName := customTagKeys]> (own o)) (proto o))
  else if decide (describeName = lit "__proto__") then
    Some (DescribeKeys (own o) (Some customTagKeys))
  else if decide (describeName = lit "size") then
    match proto o with
    | Some _ => None
    | None =>
        Some (DescribeKeys (<[describeName := customTagKeys]> (own o)) (proto o))
    end
  else Some (DescribeKeys (<[describeName := customTagKeys]> (own o)) (proto o)).

(** The loop of lines 130-136 over the groups, in the order of the map. *)
Definition customTagKeysByDescribe (failedTests : list (str * list entry))
  : option describe_keys :=
  fold_left
    (fun acc group =>
       match acc with
       | Some o => assign o group.1 (customTagKeys group.2)
       | None => None
       end)
    failedTests (Some (DescribeKeys ∅ None)).

(** Lines 353-363: the payment methods shown for an entry. *)
Definition paymentMethods (t : entry) : list str :=
  match customTags t !! lit "payment_method" with
  | Some (Tags.Multi vs) => vs
  | Some (Tags.Scalar (c :: v)) => [c :: v]
  | Some (Tags.Scalar []) | None => []
  end.

(** Line 617 (and the e-mail body): the number announced as the total of
    failed tests. *)
Definition totalFailed (failedTests : list (str * list entry)) : nat :=
  fold_left (fun acc arr => (acc + length arr)%nat) (Map_values failedTests) 0%nat.

(** Line 618: [this.failedTests.size] *)
Definition totalDescribe (failedTests : list (str * list entry)) : nat :=
  length failedTests.

Section Reporter.
(** [path.basename] and the printing of a line number belong to the
    platform. *)
Variable basename : str -> str.
Variable show : N -> str.

Definition loc_of (test : TestCase) : str :=
  match Playwright.location test with
  | Some l => basename (file l) ++ lit ":" ++ show (line l)
  | None => lit "unknown"
  end.

(** [onTestEnd(test, result)]: the new value of [this.failedTests] and
    the warnings printed. *)
Definition onTestEnd (test : TestCase) (result : TestResult)
    (failedTests : list (str * list entry))
  : list (str * list entry) * list Tags.warning :=
  if negb (bool_decide (status result = failed)) then (failedTests, [])
  else
    let loc := loc_of test in
    let describeName := or_else (parent test) (lit "Tests without describe") in
    let tags := extractTags test in
    let '(d, warns) := Tags.extractDataFromTags tags (Playwright.title test) in
    (fold_left
       (fun failedTests error =>
          let '(cleanedRaw, expected, actual) := errorFields error in
          let tests := default [] (Map_get failedTests describeName) in
          Map_set failedTests describeName
            (tests ++ [Entry (Playwright.title test) loc
                         (Playwright.duration result)
                         cleanedRaw expected actual tags
                         (Tags.local d) (Tags.realm d) (Tags.customTags d)]))
       (errors result) failedTests,
     warns).

(** The host calls [onTestEnd] once per finished test. *)
Definition ingest (events : list (TestCase * TestResult))
  : list (str * list entry) * list Tags.warning :=
  fold_left
    (fun acc ev =>
       let '(tests', warns) := onTestEnd ev.1 ev.2 acc.1 in
       (tests', acc.2 ++ warns))
    events ([], []).

(** The renderers are template strings over the accumulated entries. *)
Variable fullReportHtml : list (str * list entry) -> str.
Variable emailBodyHtml : list (str * list entry) -> str.
Variable textSummary : list (str * list entry) -> str.
Variable teamsPayload : list (str * list entry) -> str.

(** The loop of lines 744-758, [n] being the number of iterations left
    before [attempt <= retries] fails.  The result tells whether the
    function returned from inside the loop. *)
Fixpoint attempts (text html : str) (retries : nat) (delay : N)
    (n attempt : nat) : M bool :=
  match n with
  | O => mret false
  | S n' =>
      sent ← try_catch
               (transporter_sendMail text html ;; print EmailSent ;; mret true)
               (fun error =>
                  print (AttemptFailed attempt error
                           (or_else (response error) (lit "No response"))) ;;
                  (if (attempt <? retries)%nat then setTimeout delay
                   else mret ()) ;;
                  mret false);
      if sent : bool then mret true
      else attempts text html retries delay n' (S attempt)
  end.

(** [sendEmailWithRetry(transporter, mailOptions, retries, delay)] *)
Definition sendEmailWithRetry (text html : str) (retries : nat) (delay : N)
  : M unit :=
  sent ← attempts text html retries delay retries 1;
  if sent : bool then mret () else print AllAttemptsFailed.

(** The TypeError the engine creates when strict code assigns to an
    inherited accessor property that has no setter, the argument being the
    name of the property; its message and its stack are the engine's. *)
Variable TypeError : str -> JsError.

(** [async onEnd(result)].  The columns of lines 129-136 are computed
    before the templates are filled, and the templates read them back under
    the names of the groups; [totalDuration] (lines 124-126) is read by the
    templates only. *)
Definition onEnd (failedTests : list (str * list entry)) : M unit :=
  match failedTests with
  | [] => print AllTestsPassed
  | _ :: _ =>
      match customTagKeysByDescribe failedTests with
      | None => throw (TypeError (lit "size"))
      | Some _ => mret ()
      end ;;
      fs_writeFileSync (lit "costum-report/failed-report.html")
                       (fullReportHtml failedTests) ;;
      print ReportGenerated ;;
      url ← webhookUrl;
      match url with
      | Some (c :: u) =>
          try_catch
            (axios_post (c :: u) (teamsPayload failedTests) ;; print TeamsSent)
            (fun error =>
               print (TeamsError (message error) (code error)
                        (or_else (response error) (lit "No response"))))
      | Some [] | None => print WebhookUrlNotDefined
      end ;;
      verified ← try_catch
                   (transporter_verify ;; print SmtpVerified ;; mret true)
                   (fun error =>
                      print (SmtpVerifyError error
                               (or_else (response error) (lit "No response"))) ;;
                      mret false);
      if verified : bool then
        sendEmailWithRetry (textSummary failedTests)
                           (emailBodyHtml failedTests) 3 1000
      else mret ()
  end.
End Reporter.

End FailedReport.

(** ** The full-run reporter (second half of the file) *)

Module FullReport.
Import Playwright Effects.

Record entry : Type := Entry {
  title : str;
  location : str;
  duration : Z;
  status : test_status;
  tags : list str;
  local : str;
  realm : str;
  customTags : gmap str Tags.tag_value;
  rawError : option str;
  expected : option (list str);
  actual : option (list str)
}.

(** [function extractTags(test)] *)
Definition extractTags (test : TestCase) : list str :=
  match Playwright.tags test with
  | [] => [lit "Aucun tag"]
  | t :: ts => t :: ts
  end.

(** The three assignments of lines 880-882 *)
Definition set_error (t : entry) (cleanedRaw : str) (exp act : list str)
  : entry :=
  Entry (title t) (location t) (duration t) (status t) (tags t) (local t)
        (realm t) (customTags t) (Some cleanedRaw) (Some exp) (Some act).

(** The statistics of [onEnd]. *)
Record stats : Type := Stats {
  totalTests : N;
  totalPassed : N;
  totalFailed : N;
  totalSkipped : N;
  allPaymentMethods : list str;
  allLocals : list str;
  allRealms : list str
}.

(** [set.add(x)] on a [Set], kept in insertion order *)
Definition Set_add (x : str) (s : list str) : list str :=
  if bool_decide (x ∈ s) then s else s ++ [x].

(** The body of the inner loop of lines 906-924 *)
Definition count (st : stats) (t : entry) : stats :=
  Stats
    (totalTests st + 1)
    (if bool_decide (status t = passed) then totalPassed st + 1 else totalPassed st)
    (if bool_decide (status t = passed) then totalFailed st
     else if bool_decide (status t = failed) then totalFailed st + 1
     else totalFailed st)
    (if bool_decide (status t = passed) then totalSkipped st
     else if bool_decide (status t = failed) then totalSkipped st
     else if bool_decide (status t = skipped) then totalSkipped st + 1
     else totalSkipped st)
    (match customTags t !! lit "payment_method" with
     | Some (Tags.Multi vs) => allPaymentMethods st ++ vs
     | Some (Tags.Scalar (c :: v)) => allPaymentMethods st ++ [c :: v]
     | Some (Tags.Scalar []) | None => allPaymentMethods st
     end)
    (Set_add (local t) (allLocals st))
    (Set_add (realm t) (allRealms st)).

(** Lines 897-925: the counters after the two nested loops *)
Definition statistics (tests : list (str * list entry)) : stats :=
  fold_left (fun st ts => fold_left count ts st) (Map_values tests)
            (Stats 0 0 0 0 [] [] []).

(** Line 927: [Array.from(new Set(allPaymentMethods)).sort()] *)
Definition uniqueSorted (allPaymentMethods : list str) : list str :=
  sort (fold_left (fun set x => Set_add x set) allPaymentMethods []).

(** The class of the border of a test card in the report: failed unless
    the status is passed or skipped. *)
Definition statusClass (t : entry) : str :=
  if bool_decide (status t = passed) then lit "passed"
  else if bool_decide (status t = skipped) then lit "skipped"
  else lit "failed".

Section Reporter.
Variable basename : str -> str.
Variable show : N -> str.

Definition loc_of (test : TestCase) : str :=
  match Playwright.location test with
  | Some l => basename (file l) ++ lit ":" ++ show (line l)
  | None => lit "unknown"
  end.

(** [onTestEnd(test, result)]: the new value of [this.tests] and the
    warnings printed. *)
Definition onTestEnd (test : TestCase) (result : TestResult)
    (tests : list (str * list entry))
  : list (str * list entry) * list Tags.warning :=
  let loc := loc_of test in
  let describeName := or_else (parent test) (lit "Tests sans describe") in
  let tags := extractTags test in
  let '(d, warns) := Tags.extractDataFromTags tags (Playwright.title test) in
  let testData :=
    Entry (Playwright.title test) loc (Playwright.duration result)
          (Playwright.status result) tags
          (Tags.local d) (Tags.realm d) (Tags.customTags d)
          None None None in
  let testData :=
    if bool_decide (Playwright.status result = failed) then
      fold_left
        (fun testData error =>
           let '(cleanedRaw, expected, actual) := errorFields error in
           set_error testData cleanedRaw expected actual)
        (errors result) testData
    else testData in
  let group := default [] (Map_get tests describeName) in
  (Map_set tests describeName (group ++ [testData]), warns).

(** The host calls [onTestEnd] once per finished test. *)
Definition ingest (events : list (TestCase * TestResult))
  : list (str * list entry) * list Tags.warning :=
  fold_left
    (fun acc ev =>
       let '(tests', warns) := onTestEnd ev.1 ev.2 acc.1 in
       (tests', acc.2 ++ warns))
    events ([], []).

(** The renderer is a template string over the statistics and the
    entries (the payment methods are deduplicated and sorted for
    display only). *)
Variable fullReportHtml : stats -> list (str * list entry) -> str.

(** [async onEnd(result)] *)
Definition onEnd (tests : list (str * list entry)) : M unit :=
  match tests with
  | [] => print NothingToReport
  | _ :: _ =>
      fs_writeFileSync (lit "costum-report/full-test-report.html")
                       (fullReportHtml (statistics tests) tests) ;;
      print ReportGenerated
  end.
End Reporter.

End FullReport.

(** * Properties

    Everything above embeds the source.  The definitions below are the
    vocabulary of the statements (shapes of inputs, counters on traces,
    sample inputs); none of them is code of the reporter. *)

#[local] Arguments N.eqb : simpl never.
#[local] Arguments N.leb : simpl never.
#[local] Arguments lit : simpl never.

(** ** Strings *)

Definition ESC : str := [27].

Lemma startsWith_app (p s : str) : startsWith (p ++ s) p = true.
Proof.
  induction p as [|c p IH]; simpl; [done|].
  by rewrite N.eqb_refl, IH.
Qed.

Lemma startsWith_true (s p : str) :
  startsWith s p = true -> exists t, s = p ++ t.
Proof.
  revert s; induction p as [|c p IH]; intros s H; simpl in *.
  - by exists s.
  - destruct s as [|x s]; [done|].
    apply andb_true_iff in H as [Hx Hs]. apply N.eqb_eq in Hx as ->.
    destruct (IH _ Hs) as [t ->]. by exists t.
Qed.

Lemma replace_prefix (p s : str) : replace (p ++ s) p [] = s.
Proof.
  destruct p as [|c p]; simpl.
  - destruct s; reflexivity.
  - rewrite N.eqb_refl, startsWith_app. simpl. by rewrite drop_app_length.
Qed.

(** A key or a reserved word holds no colon. *)
Definition no_colon (s : str) : Prop := 58 ∉ s.

Lemma split_no_colon (s : str) : no_colon s -> split 58 s = [s].
Proof.
  unfold no_colon. induction s as [|c s IH]; intros H; simpl; [done|].
  apply not_elem_of_cons in H as [Hc Hs].
  destruct (N.eqb_spec c 58) as [->|_]; [done|]. by rewrite IH.
Qed.

Lemma split_colon (k v : str) :
  no_colon k -> split 58 (k ++ 58 :: v) = k :: split 58 v.
Proof.
  unfold no_colon. induction k as [|c k IH]; intros H; simpl; [done|].
  apply not_elem_of_cons in H as [Hc Hs].
  destruct (N.eqb_spec c 58) as [->|_]; [done|]. by rewrite IH.
Qed.

Lemma split_inv (s key value : str) (rest : list str) :
  split 58 s = key :: value :: rest ->
  no_colon key /\ exists v, s = key ++ 58 :: v.
Proof.
  unfold no_colon. revert key. induction s as [|c s IH]; intros key; simpl; [done|].
  destruct (N.eqb_spec c 58) as [->|Hc].
  - intros [= <- _]. split; [apply not_elem_of_nil|]. by exists s.
  - destruct (split 58 s) as [|h t] eqn:E; [done|].
    intros [= <- ->]. destruct (IH h eq_refl) as [Hh [v ->]].
    split; [|by exists v]. apply not_elem_of_cons; split; [congruence|done].
Qed.

Lemma includes_colon (s : str) : includes s [58] = true <-> 58 ∈ s.
Proof.
  induction s as [|c s IH]; simpl.
  - split; [done|]. by intros ?%elem_of_nil.
  - rewrite andb_true_r, orb_true_iff, IH, N.eqb_eq, elem_of_cons.
    split; (intros [H|H]; [left; congruence | by right]).
Qed.

Lemma split_nonempty (sep : char) (s : str) : split sep s <> [].
Proof.
  destruct s as [|c s]; simpl; [done|].
  destruct (c =? sep); [done|]. by destruct (split sep s).
Qed.

(** A string that includes a colon splits into at least two parts. *)
Lemma split_includes (s : str) :
  includes s [58] = true -> exists key value rest, split 58 s = key :: value :: rest.
Proof.
  rewrite includes_colon. induction s as [|c s IH]; intros H.
  - by apply elem_of_nil in H.
  - simpl. destruct (N.eqb_spec c 58) as [->|Hc].
    + destruct (split 58 s) as [|h t] eqn:E; [by apply split_nonempty in E|].
      by exists [], h, t.
    + apply elem_of_cons in H as [H|H]; [congruence|].
      destruct (IH H) as (k & v & r & ->). by exists (c :: k), v, r.
Qed.

Lemma startsWith_key (k w v t : str) :
  no_colon k -> no_colon w ->
  startsWith (k ++ 58 :: v) (w ++ 58 :: t) = true -> k = w.
Proof.
  unfold no_colon. revert w.
  induction k as [|c k IH]; intros [|x w] Hk Hw; simpl; try done.
  - destruct (N.eqb_spec 58 x) as [<-|]; [|done]. intros _.
    exfalso. apply Hw. by left.
  - destruct (N.eqb_spec c 58) as [->|]; [|done]. intros _.
    exfalso. apply Hk. by left.
  - apply not_elem_of_cons in Hk as [_ Hk]. apply not_elem_of_cons in Hw as [_ Hw].
    destruct (N.eqb_spec c x) as [->|]; [|done]. simpl.
    intros Hs. f_equal. by apply IH.
Qed.


(** ** The tag parser *)

Section TagFacts.
Import Tags.

(** The tag [@key:value] *)
Definition generic_tag (key value : str) : str := 64 :: key ++ 58 :: value.

(** The keys with a rule of their own *)
Definition reserved (key : str) : Prop :=
key = lit "local" \/ key = lit "locale" \/ key = lit "realm"
\/ key = lit "payment_method".

(** The portion of a value before its first colon *)
Definition before_colon (value : str) : str := hd [] (split 58 value).

Lemma before_colon_plain (v : str) : no_colon v -> before_colon v = v.
Proof. intros H. unfold before_colon. by rewrite split_no_colon. Qed.

Lemma before_colon_cut (a b : str) :
no_colon a -> before_colon (a ++ 58 :: b) = a.
Proof. intros H. unfold before_colon. by rewrite split_colon. Qed.

Lemma startsWith_generic (key value : str) (w : string) :
no_colon key -> no_colon (lit w) -> key <> lit w ->
startsWith (generic_tag key value) (64 :: lit w ++ [58]) = false.
Proof.
intros Hk Hw Hne. unfold generic_tag. simpl.
destruct (startsWith (key ++ 58 :: value) (lit w ++ [58])) eqn:E; [|done].
by apply startsWith_key in E.
Qed.

Lemma no_colon_lit_local : no_colon (lit "local").
Proof. apply (bool_decide_unpack _). by vm_compute. Qed.
Lemma no_colon_lit_locale : no_colon (lit "locale").
Proof. apply (bool_decide_unpack _). by vm_compute. Qed.
Lemma no_colon_lit_realm : no_colon (lit "realm").
Proof. apply (bool_decide_unpack _). by vm_compute. Qed.
Lemma no_colon_lit_payment : no_colon (lit "payment_method").
Proof. apply (bool_decide_unpack _). by vm_compute. Qed.

(** A generic tag reaches the last branch of the loop, which stores the
  first part of the value under the key. *)
Lemma step_generic (d : data) (key value : str) :
no_colon key -> ~ reserved key ->
step d (generic_tag key value)
= Data (local d) (realm d)
       (set_prop (customTags d) key (Scalar (before_colon value))).
Proof.
intros Hk Hr. unfold step.
assert (key <> lit "local" /\ key <> lit "locale" /\ key <> lit "realm"
        /\ key <> lit "payment_method") as (H1 & H2 & H3 & H4)
  by (unfold reserved in Hr; tauto).
change (lit "@local:") with (64 :: lit "local" ++ [58]).
change (lit "@locale:") with (64 :: lit "locale" ++ [58]).
change (lit "@realm:") with (64 :: lit "realm" ++ [58]).
change (lit "@payment_method:") with (64 :: lit "payment_method" ++ [58]).
rewrite !startsWith_generic
  by auto using no_colon_lit_local, no_colon_lit_locale, no_colon_lit_realm,
                no_colon_lit_payment.
replace (includes (generic_tag key value) (lit ":")) with true.
2: { symmetry. apply includes_colon. unfold generic_tag.
     right. apply elem_of_app. right. by left. }
unfold set_generic, slice, generic_tag, before_colon. simpl.
rewrite drop_0, split_colon by done.
destruct (split 58 value) as [|h t] eqn:E; [by apply split_nonempty in E|done].
Qed.

(** A tag that does not start with [@key:] leaves the entry of [key]
  alone. *)
Lemma step_keeps (d : data) (tag key : str) :
startsWith tag (64 :: key ++ [58]) = false ->
customTags (step d tag) !! key = customTags d !! key.
Proof.
intros Hs. unfold step.
destruct (startsWith tag (lit "@local:") || startsWith tag (lit "@locale:"));
  [done|].
destruct (startsWith tag (lit "@realm:")); [done|].
destruct (startsWith tag (lit "@payment_method:")) eqn:Hp.
{ simpl. assert (key <> lit "payment_method") as Hne.
  { intros ->. change (64 :: lit "payment_method" ++ [58])
      with (lit "@payment_method:") in Hs. congruence. }
  unfold push_payment_method.
  destruct (customTags d !! lit "payment_method") as [[[|? ?]|?]|];
    try done; apply lookup_insert_ne; congruence. }
destruct (startsWith tag (lit "@") && includes tag (lit ":")) eqn:Hg; [|done].
simpl. apply andb_true_iff in Hg as [Hat _].
apply startsWith_true in Hat as [t ->].
change (lit "@" ++ t) with (64 :: t) in *.
unfold set_generic, slice. simpl. rewrite drop_0.
destruct (split 58 t) as [|k [|v r]] eqn:E; try done.
apply split_inv in E as [Hk [v' ->]].
unfold set_prop. case_decide; [done|].
apply lookup_insert_ne. intros ->.
replace (64 :: key ++ 58 :: v') with ((64 :: key ++ [58]) ++ v') in Hs
  by (simpl; by rewrite <- app_assoc).
by rewrite startsWith_app in Hs.
Qed.

(** The list held under [payment_method], empty when there is none. *)
Definition payment_list (o : gmap str tag_value) : list str :=
match o !! lit "payment_method" with
| Some (Multi vs) => vs
| _ => []
end.

(** [payment_method] holds a list or nothing. *)
Definition payment_is_list (o : gmap str tag_value) : Prop :=
forall v, o !! lit "payment_method" <> Some (Scalar v).

Lemma step_payment (d : data) (v : str) :
payment_is_list (customTags d) ->
customTags (step d (lit "@payment_method:" ++ v)) !! lit "payment_method"
= Some (Multi (payment_list (customTags d) ++ [v])).
Proof.
intros Hd. unfold step.
replace (startsWith (lit "@payment_method:" ++ v) (lit "@local:")) with false
  by reflexivity.
replace (startsWith (lit "@payment_method:" ++ v) (lit "@locale:")) with false
  by reflexivity.
replace (startsWith (lit "@payment_method:" ++ v) (lit "@realm:")) with false
  by reflexivity.
rewrite startsWith_app, replace_prefix. simpl.
unfold push_payment_method, payment_list.
destruct (customTags d !! lit "payment_method") as [[s|vs]|] eqn:E.
- by destruct (Hd s).
- by rewrite lookup_insert_eq.
- by rewrite lookup_insert_eq.
Qed.

Lemma step_payment_is_list (d : data) (tag : str) :
payment_is_list (customTags d) -> payment_is_list (customTags (step d tag)).
Proof.
intros Hd v.
destruct (startsWith tag (lit "@payment_method:")) eqn:Hp.
- apply startsWith_true in Hp as [t ->]. by rewrite step_payment.
- rewrite step_keeps by exact Hp. apply Hd.
Qed.

Lemma fold_payment_is_list (tags : list str) (d : data) :
payment_is_list (customTags d) ->
payment_is_list (customTags (fold_left step tags d)).
Proof.
revert d. induction tags as [|tag tags IH]; intros d Hd; simpl; [done|].
by apply IH, step_payment_is_list.
Qed.

Lemma initial_payment_is_list : payment_is_list (customTags initial).
Proof. intros v. simpl. by rewrite lookup_empty. Qed.

(** The string branch of [push_payment_method] is dead code. *)
Lemma payment_method_never_scalar (tags : list str) (testTitle v : str) :
customTags (extractDataFromTags tags testTitle).1 !! lit "payment_method"
<> Some (Scalar v).
Proof. apply fold_payment_is_list, initial_payment_is_list. Qed.

Lemma fold_payment (tags : list str) (d : data) :
payment_is_list (customTags d) ->
customTags (fold_left step tags d) !! lit "payment_method"
= match extractPaymentMethodsFromTags tags with
  | [] => customTags d !! lit "payment_method"
  | v :: vs => Some (Multi (payment_list (customTags d) ++ v :: vs))
  end.
Proof.
unfold extractPaymentMethodsFromTags.
revert d. induction tags as [|tag tags IH]; intros d Hd; [done|].
cbn [fold_left]. rewrite IH by by apply step_payment_is_list.
destruct (startsWith tag (lit "@payment_method:")) eqn:Hp.
- rewrite filter_cons_True by done. cbn [map].
  apply startsWith_true in Hp as [t ->].
  unfold payment_list at 1. rewrite step_payment by done.
  rewrite replace_prefix.
  destruct (map _ _); [done|]. by rewrite <- app_assoc.
- rewrite filter_cons_False by congruence.
  unfold payment_list. by rewrite step_keeps by exact Hp.
Qed.

Lemma fold_keeps (post : list str) (d : data) (key : str) :
Forall (fun tag => startsWith tag (64 :: key ++ [58]) = false) post ->
customTags (fold_left step post d) !! key = customTags d !! key.
Proof.
intros H. revert d. induction H as [|tag post Htag _ IH]; intros d; [done|].
cbn [fold_left]. by rewrite IH, step_keeps.
Qed.

(** What the parser keeps of a generic tag: the value up to its first
  colon, under every key but [__proto__]. *)
Lemma generic_value_cut (d : data) (key a b : str) :
no_colon key -> ~ reserved key -> key <> lit "__proto__" -> no_colon a ->
customTags (step d (generic_tag key (a ++ 58 :: b))) !! key = Some (Scalar a).
Proof.
intros Hk Hr Hp Ha. rewrite step_generic by done. cbn [customTags].
unfold set_prop. rewrite decide_False by done.
by rewrite lookup_insert_eq, before_colon_cut.
Qed.

(** C7.  The tag list of the specification parses to local fr, realm eu
  and the payment methods cb then paypal, in the order of the tags;
  nothing else is stored and no warning is printed. *)
Theorem parse_documented_tags (testTitle : str) :
extractDataFromTags
  [lit "@local:fr"; lit "@realm:eu"; lit "@payment_method:cb";
   lit "@payment_method:paypal"] testTitle
= (Data (lit "fr") (lit "eu")
        {[ lit "payment_method" := Multi [lit "cb"; lit "paypal"] ]},
   []).
Proof. vm_compute. reflexivity. Qed.

(** C8, as amended.  In a tag list cut at the last tag [@key:value] of a
  generic key other than [__proto__], the entry of the key is the value
  of that tag up to its first colon; a tag [@payment_method:v] added to
  any tag list appends [v] to the list held so far, which is at any time
  the list of the payment-method values in the order of the tags. *)
Theorem last_write_wins_payment_accumulates
  (pre post tags : list str) (key value v testTitle : str) :
no_colon key -> ~ reserved key -> key <> lit "__proto__" ->
Forall (fun tag => startsWith tag (64 :: key ++ [58]) = false) post ->
customTags (extractDataFromTags (pre ++ generic_tag key value :: post)
                                testTitle).1 !! key
= Some (Scalar (before_colon value))
/\ (no_colon value -> before_colon value = value)
/\ customTags (extractDataFromTags (tags ++ [lit "@payment_method:" ++ v])
                                   testTitle).1 !! lit "payment_method"
   = Some (Multi (payment_list
                    (customTags (extractDataFromTags tags testTitle).1)
                  ++ [v]))
/\ payment_list (customTags (extractDataFromTags tags testTitle).1)
   = extractPaymentMethodsFromTags tags.
Proof.
intros Hk Hr Hp Hpost. cbn [extractDataFromTags fst].
split; [|split; [apply before_colon_plain|split]].
- rewrite fold_left_app. cbn [fold_left].
  rewrite fold_keeps by done. rewrite step_generic by done.
  cbn [customTags]. unfold set_prop. rewrite decide_False by done.
  apply lookup_insert_eq.
- rewrite fold_left_app. cbn [fold_left].
  apply step_payment, fold_payment_is_list, initial_payment_is_list.
- unfold payment_list.
  rewrite fold_payment by apply initial_payment_is_list.
  unfold payment_list. cbn [customTags initial]. rewrite lookup_empty.
  by destruct (extractPaymentMethodsFromTags tags).
Qed.

Lemma last_write_wins_payment_accumulates_witness :
customTags (extractDataFromTags
              ([lit "@env:eu"] ++ generic_tag (lit "env") (lit "us")
                 :: [lit "@realm:x"]) []).1 !! lit "env"
= Some (Scalar (lit "us"))
/\ customTags (extractDataFromTags
                 ([lit "@payment_method:cb"] ++ [lit "@payment_method:" ++ lit "paypal"])
                 []).1 !! lit "payment_method"
   = Some (Multi [lit "cb"; lit "paypal"]).
Proof.
destruct (last_write_wins_payment_accumulates
            [lit "@env:eu"] [lit "@realm:x"] [lit "@payment_method:cb"]
            (lit "env") (lit "us") (lit "paypal") [])
  as (H1 & _ & H3 & _).
- apply (bool_decide_unpack _). vm_compute. reflexivity.
- unfold reserved. intros [H|[H|[H|H]]]; vm_compute in H; discriminate H.
- intros H; vm_compute in H; discriminate H.
- repeat constructor.
- split; [exact H1 | exact H3].
Defined.

(** C8 as stated fails: the value kept is cut at its first colon, and the
  key [__proto__] keeps nothing. *)
Lemma last_write_wins_counterexample :
customTags (extractDataFromTags [lit "@env:eu"; lit "@env:us:east"] []).1
  !! lit "env" = Some (Scalar (lit "us"))
/\ lit "us" <> lit "us:east"
/\ customTags (extractDataFromTags [lit "@__proto__:a"; lit "@__proto__:b"] []).1
     !! lit "__proto__" = None.
Proof.
split; [|split].
- vm_compute. reflexivity.
- discriminate.
- vm_compute. reflexivity.
Qed.

(** C10.  The example of the claim: [@env:us:east] stores us under env.
  Under the key [__proto__] the same tag stores nothing at all. *)
Theorem value_cut_at_first_colon (testTitle : str) :
customTags (extractDataFromTags [lit "@env:us:east"] testTitle).1
= {[ lit "env" := Scalar (lit "us") ]}
/\ customTags (extractDataFromTags [lit "@__proto__:us:east"] testTitle).1 = ∅.
Proof. split; vm_compute; reflexivity. Qed.
End TagFacts.

(** ** The map of groups *)

Section MapFacts.
Context {V : Type}.
Implicit Types (m : list (str * V)) (k : str).

Lemma Map_get_set_eq m k (v : V) : Map_get (Map_set m k v) k = Some v.
Proof.
  induction m as [|[k' v'] m IH]; simpl.
  - by rewrite decide_True.
  - destruct (decide (k' = k)) as [->|Hne]; simpl.
    + by rewrite decide_True.
    + by rewrite decide_False.
Qed.

Lemma Map_get_set_ne m k k' (v : V) :
  k <> k' -> Map_get (Map_set m k v) k' = Map_get m k'.
Proof.
  intros Hne. induction m as [|[k0 v0] m IH]; simpl.
  - by rewrite decide_False.
  - destruct (decide (k0 = k)) as [->|Hk]; simpl.
    + by rewrite !decide_False.
    + by rewrite IH.
Qed.

End MapFacts.

Section MapPushFacts.
Context {V : Type}.
Implicit Types (k : str).

(** Pushing [vs], one at a time, on the array held under [k]. *)
Definition Map_push (m : list (str * list V)) k (vs : list V)
  : list (str * list V) :=
  fold_left (fun (acc : list (str * list V)) v =>
               Map_set acc k (default [] (Map_get acc k) ++ [v])) vs m.

Lemma Map_push_get (m : list (str * list V)) k (v : V) (vs : list V) :
  Map_get (Map_push m k (v :: vs)) k
  = Some (default [] (Map_get m k) ++ v :: vs).
Proof.
  unfold Map_push. revert m v.
  induction vs as [|w vs IH]; intros m v; cbn [fold_left].
  - apply Map_get_set_eq.
  - cbn [fold_left] in IH. rewrite IH, Map_get_set_eq. simpl.
    by rewrite <- app_assoc.
Qed.

Lemma Map_push_get_ne (m : list (str * list V)) k k' (vs : list V) :
  k <> k' -> Map_get (Map_push m k vs) k' = Map_get m k'.
Proof.
  intros Hne. unfold Map_push. revert m.
  induction vs as [|w vs IH]; intros m; cbn [fold_left]; [done|].
  by rewrite IH, Map_get_set_ne.
Qed.

(** Setting the array of [k] to itself plus one element adds that
    element to the elements of the map, whatever the group. *)
Lemma Map_set_push_perm (m : list (str * list V)) k (v : V) :
  concat (Map_values (Map_set m k (default [] (Map_get m k) ++ [v])))
  ≡ₚ v :: concat (Map_values m).
Proof.
  unfold Map_values. induction m as [|[k' g] m IH]; simpl; [done|].
  destruct (decide (k' = k)) as [->|Hne]; simpl.
  - rewrite <- app_assoc. simpl.
    by rewrite <- Permutation_middle.
  - rewrite IH. by rewrite <- Permutation_middle.
Qed.
End MapPushFacts.

(** ** Ingestion *)

Section IngestionFacts.
Import Playwright.
Variable basename : str -> str.
Variable show : N -> str.

(** The suite names of the two reporters *)
Definition failed_group (test : TestCase) : str :=
  or_else (parent test) (lit "Tests without describe").
Definition full_group (test : TestCase) : str :=
  or_else (parent test) (lit "Tests sans describe").

(** What the failures-only reporter pushes for one error of a test *)
Definition failed_entry (test : TestCase) (result : TestResult)
    (error : TestError) : FailedReport.entry :=
  let d := (Tags.extractDataFromTags (FailedReport.extractTags test)
                                     (title test)).1 in
  FailedReport.Entry (title test) (FailedReport.loc_of basename show test)
    (duration result)
    (errorFields error).1.1 (errorFields error).1.2 (errorFields error).2
    (FailedReport.extractTags test)
    (Tags.local d) (Tags.realm d) (Tags.customTags d).

Lemma failed_onTestEnd (test : TestCase) (result : TestResult)
    (failedTests : list (str * list FailedReport.entry)) :
  status result = failed ->
  FailedReport.onTestEnd basename show test result failedTests
  = (Map_push failedTests (failed_group test)
       (map (failed_entry test result) (errors result)),
     (Tags.extractDataFromTags (FailedReport.extractTags test) (title test)).2).
Proof.
  intros Hs. unfold FailedReport.onTestEnd. rewrite Hs.
  rewrite bool_decide_eq_true_2 by done. cbn [negb].
  destruct (Tags.extractDataFromTags _ _) as [d warns] eqn:E.
  f_equal. unfold Map_push, failed_entry. rewrite E. cbn [fst].
  fold (failed_group test).
  generalize (errors result) failedTests.
  intros es. induction es as [|e es IH]; intros m; cbn [fold_left map]; [done|].
  rewrite <- IH.
  by destruct (errorFields e) as [[raw exp] act].
Qed.

Lemma failed_onTestEnd_other (test : TestCase) (result : TestResult)
    (failedTests : list (str * list FailedReport.entry)) :
  status result <> failed ->
  FailedReport.onTestEnd basename show test result failedTests
  = (failedTests, []).
Proof.
  intros Hs. unfold FailedReport.onTestEnd.
  by rewrite bool_decide_eq_false_2.
Qed.

(** The record of the full-run reporter before its error fields are
    filled *)
Definition full_entry (test : TestCase) (result : TestResult)
  : FullReport.entry :=
  let d := (Tags.extractDataFromTags (FullReport.extractTags test)
                                     (title test)).1 in
  FullReport.Entry (title test) (FullReport.loc_of basename show test)
    (duration result) (status result) (FullReport.extractTags test)
    (Tags.local d) (Tags.realm d) (Tags.customTags d) None None None.

(** The loop over the errors of the full-run reporter *)
Definition full_errors (t : FullReport.entry) (es : list TestError)
  : FullReport.entry :=
  fold_left
    (fun testData error =>
       let '(cleanedRaw, expected, actual) := errorFields error in
       FullReport.set_error testData cleanedRaw expected actual) es t.

Definition full_record (test : TestCase) (result : TestResult)
  : FullReport.entry :=
  if bool_decide (status result = failed)
  then full_errors (full_entry test result) (errors result)
  else full_entry test result.

Lemma full_onTestEnd (test : TestCase) (result : TestResult)
    (tests : list (str * list FullReport.entry)) :
  FullReport.onTestEnd basename show test result tests
  = (Map_set tests (full_group test)
       (default [] (Map_get tests (full_group test))
        ++ [full_record test result]),
     (Tags.extractDataFromTags (FullReport.extractTags test) (title test)).2).
Proof.
  unfold FullReport.onTestEnd, full_record, full_entry, full_errors, full_group.
  by destruct (Tags.extractDataFromTags _ _) as [d warns].
Qed.

Lemma full_errors_last (t : FullReport.entry) (es : list TestError)
    (e : TestError) :
  full_errors t (es ++ [e])
  = FullReport.set_error (full_errors t es)
      (errorFields e).1.1 (errorFields e).1.2 (errorFields e).2.
Proof.
  unfold full_errors. rewrite fold_left_app. cbn [fold_left].
  by destruct (errorFields e) as [[raw exp] act].
Qed.

Lemma full_errors_keeps (t : FullReport.entry) (es : list TestError) :
  FullReport.tags (full_errors t es) = FullReport.tags t
  /\ FullReport.local (full_errors t es) = FullReport.local t
  /\ FullReport.realm (full_errors t es) = FullReport.realm t
  /\ FullReport.status (full_errors t es) = FullReport.status t.
Proof.
  unfold full_errors. revert t.
  induction es as [|e es IH]; intros t; cbn [fold_left]; [done|].
  destruct (errorFields e) as [[raw exp] act].
  destruct (IH (FullReport.set_error t raw exp act)) as (-> & -> & -> & ->).
  done.
Qed.
End IngestionFacts.

Section IngestionClaims.
Import Playwright.
Variable basename : str -> str.
Variable show : N -> str.

(** C1, as amended.  A failed test whose last recorded error is [e]:
    the full-run reporter stores exactly one record, appended to the group
    of the test, and its error fields are those of [e]; the failures-only
    reporter appends one record per recorded error to the group of the
    test, in the order of the errors, each with the fields of its own
    error, and leaves the other groups alone. *)
Theorem records_of_a_failed_test
    (test : TestCase) (result : TestResult)
    (tests : list (str * list FullReport.entry))
    (failedTests : list (str * list FailedReport.entry))
    (es : list TestError) (e : TestError) :
  status result = failed ->
  errors result = es ++ [e] ->
  (exists r,
      (FullReport.onTestEnd basename show test result tests).1
      = Map_set tests (full_group test)
          (default [] (Map_get tests (full_group test)) ++ [r])
      /\ FullReport.rawError r = Some (errorFields e).1.1
      /\ FullReport.expected r = Some (errorFields e).1.2
      /\ FullReport.actual r = Some (errorFields e).2)
  /\ (exists rs,
      Map_get (FailedReport.onTestEnd basename show test result failedTests).1
              (failed_group test)
      = Some (default [] (Map_get failedTests (failed_group test)) ++ rs)
      /\ map FailedReport.rawError rs
         = map (fun x => (errorFields x).1.1) (errors result)
      /\ map FailedReport.expected rs
         = map (fun x => (errorFields x).1.2) (errors result)
      /\ map FailedReport.actual rs
         = map (fun x => (errorFields x).2) (errors result))
  /\ (forall k, failed_group test <> k ->
      Map_get (FailedReport.onTestEnd basename show test result failedTests).1 k
      = Map_get failedTests k).
Proof.
  intros Hs He. split; [|split].
  - exists (full_record basename show test result).
    rewrite full_onTestEnd. split; [done|].
    unfold full_record. rewrite bool_decide_eq_true_2 by done.
    by rewrite He, full_errors_last.
  - exists (map (failed_entry basename show test result) (errors result)).
    rewrite failed_onTestEnd by done. cbn [fst].
    rewrite !map_map. split; [|done].
    rewrite He, map_app. cbn [map].
    destruct (map _ es) as [|r rs]; apply Map_push_get.
  - intros k Hk. rewrite failed_onTestEnd by done. cbn [fst].
    by apply Map_push_get_ne.
Qed.

(** C9, as amended.  A test without tags.  The full-run reporter
    stores one record for it, whatever its status: the record holds the
    placeholder as its only tag and the sentinel as local and realm, and
    the warning is printed once.  The failures-only reporter returns at
    line 81 for a test that did not fail: no record, no warning.  For a
    failed test it prints the warning once and stores one record per
    recorded error, each with the placeholder and the sentinels; without a
    recorded error it stores nothing. *)
Theorem record_of_an_untagged_test
    (test : TestCase) (result : TestResult)
    (tests : list (str * list FullReport.entry))
    (failedTests : list (str * list FailedReport.entry)) :
  Playwright.tags test = [] ->
  (exists r,
      FullReport.onTestEnd basename show test result tests
      = (Map_set tests (full_group test)
           (default [] (Map_get tests (full_group test)) ++ [r]),
         [Tags.MissingData (title test) Tags.initial])
      /\ FullReport.tags r = [lit "Aucun tag"]
      /\ FullReport.local r = lit "N/A"
      /\ FullReport.realm r = lit "N/A")
  /\ (status result <> failed ->
      FailedReport.onTestEnd basename show test result failedTests
      = (failedTests, []))
  /\ (status result = failed ->
      (FailedReport.onTestEnd basename show test result failedTests).2
      = [Tags.MissingData (title test) Tags.initial]
      /\ (errors result = [] ->
          (FailedReport.onTestEnd basename show test result failedTests).1
          = failedTests)
      /\ (errors result <> [] ->
          exists rs,
            Map_get
              (FailedReport.onTestEnd basename show test result failedTests).1
              (failed_group test)
            = Some (default [] (Map_get failedTests (failed_group test)) ++ rs)
            /\ length rs = length (errors result)
            /\ Forall (fun r => FailedReport.tags r = [lit "No tags"]
                                /\ FailedReport.local r = lit "N/A"
                                /\ FailedReport.realm r = lit "N/A") rs)).
Proof.
  intros Ht. split; [|split].
  - exists (full_record basename show test result).
    rewrite full_onTestEnd.
    assert (FullReport.extractTags test = [lit "Aucun tag"]) as Hx
      by (unfold FullReport.extractTags; by rewrite Ht).
    split; [by rewrite Hx|].
    unfold full_record.
    destruct (bool_decide (status result = failed)).
    + destruct (full_errors_keeps (full_entry basename show test result)
                  (errors result)) as (-> & -> & -> & _).
      unfold full_entry. by rewrite Hx.
    + unfold full_entry. by rewrite Hx.
  - apply failed_onTestEnd_other.
  - intros Hs. rewrite failed_onTestEnd by done. cbn [fst snd].
    assert (FailedReport.extractTags test = [lit "No tags"]) as Hx
      by (unfold FailedReport.extractTags; by rewrite Ht).
    split; [by rewrite Hx|]. split.
    + by intros ->.
    + intros He.
      exists (map (failed_entry basename show test result) (errors result)).
      split; [|split].
      * destruct (errors result) as [|e es]; [done|]. cbn [map].
        apply Map_push_get.
      * by rewrite length_map.
      * apply Forall_map, Forall_true. intros e.
        unfold failed_entry. by rewrite Hx.
Qed.
End IngestionClaims.

(** Two recorded errors of one failed test *)
Definition two_errors : Playwright.TestResult :=
  {| Playwright.status := Playwright.failed;
     Playwright.duration := 12;
     Playwright.errors :=
       [ {| Playwright.message := Some (lit "Expected: 1") |};
         {| Playwright.message := Some (lit "Received: 2") |} ] |}.

Definition untagged_test : Playwright.TestCase :=
  {| Playwright.title := lit "pays";
     Playwright.parent := Some (lit "checkout");
     Playwright.location := None;
     Playwright.tags := [] |}.

Lemma records_of_a_failed_test_witness :
  (exists r,
      (FullReport.onTestEnd id (fun _ => []) untagged_test two_errors []).1
      = [(lit "checkout", [r])]
      /\ FullReport.rawError r = Some (lit "Received: 2")
      /\ FullReport.expected r = Some []
      /\ FullReport.actual r = Some [lit "2"])
  /\ (exists rs,
      Map_get (FailedReport.onTestEnd id (fun _ => []) untagged_test two_errors []).1
              (lit "checkout") = Some rs
      /\ map FailedReport.rawError rs = [lit "Expected: 1"; lit "Received: 2"]).
Proof.
  destruct (records_of_a_failed_test id (fun _ => []) untagged_test two_errors
              [] [] [ {| Playwright.message := Some (lit "Expected: 1") |} ]
              {| Playwright.message := Some (lit "Received: 2") |}
              eq_refl eq_refl)
    as ((r & H1 & H2 & H3 & H4) & (rs & G1 & G2 & _) & _).
  split.
  - exists r. split; [exact H1|]. split; [exact H2|]. split; [exact H3|exact H4].
  - exists rs. split; [exact G1|exact G2].
Defined.

(** C1 as stated fails on the failures-only reporter: a failed test with
    two recorded errors leaves two records. *)
Lemma one_record_per_event_counterexample :
  length <$> Map_get (FailedReport.onTestEnd id (fun _ => []) untagged_test
                        two_errors []).1 (lit "checkout")
  = Some 2%nat.
Proof. vm_compute. reflexivity. Qed.

(** A test that passed, and a failed test for which the runner recorded
    no error *)
Definition passing : Playwright.TestResult :=
  {| Playwright.status := Playwright.passed;
     Playwright.duration := 3;
     Playwright.errors := [] |}.

Definition failed_without_error : Playwright.TestResult :=
  {| Playwright.status := Playwright.failed;
     Playwright.duration := 7;
     Playwright.errors := [] |}.

Lemma record_of_an_untagged_test_witness :
  Playwright.tags untagged_test = []
  /\ (exists r,
        FullReport.onTestEnd id (fun _ => []) untagged_test two_errors []
        = ([(lit "checkout", [r])],
           [Tags.MissingData (lit "pays") Tags.initial])
        /\ FullReport.tags r = [lit "Aucun tag"]
        /\ FullReport.local r = lit "N/A"
        /\ FullReport.realm r = lit "N/A")
  /\ (FailedReport.onTestEnd id (fun _ => []) untagged_test two_errors []).2
     = [Tags.MissingData (lit "pays") Tags.initial]
  /\ (exists rs,
        Map_get (FailedReport.onTestEnd id (fun _ => []) untagged_test
                   two_errors []).1 (lit "checkout")
        = Some rs
        /\ length rs = 2%nat
        /\ Forall (fun r => FailedReport.tags r = [lit "No tags"]
                            /\ FailedReport.local r = lit "N/A"
                            /\ FailedReport.realm r = lit "N/A") rs).
Proof.
  destruct (record_of_an_untagged_test id (fun _ => []) untagged_test
              two_errors [] [] eq_refl) as (Hfull & _ & Hfailed).
  destruct (Hfailed eq_refl) as (Hwarn & _ & Hrs).
  destruct Hrs as (rs & H1 & H2 & H3); [discriminate|].
  split; [reflexivity|]. split; [exact Hfull|]. split; [exact Hwarn|].
  exists rs. split; [exact H1|]. split; [exact H2|exact H3].
Defined.

(** C9 as stated fails on the failures-only reporter, whose lines it
    cites: an untagged test that passed leaves no record and no warning,
    and an untagged test that failed without a recorded error leaves the
    warning and no record. *)
Lemma untagged_test_without_record_counterexample :
  FailedReport.onTestEnd id (fun _ => []) untagged_test passing []
  = ([], [])
  /\ FailedReport.onTestEnd id (fun _ => []) untagged_test
       failed_without_error []
     = ([], [Tags.MissingData (lit "pays") Tags.initial]).
Proof. split; vm_compute; reflexivity. Qed.

(** ** The statistics of the full-run reporter *)

Section StatisticsFacts.
Import Playwright.
Variable basename : str -> str.
Variable show : N -> str.

(** The number of records of a given status *)
Definition tally (s : test_status) (ts : list FullReport.entry) : N :=
  N.of_nat (length (filter (fun t => FullReport.status t = s) ts)).

Lemma tally_cons (s : test_status) (t : FullReport.entry)
    (ts : list FullReport.entry) :
  tally s (t :: ts)
  = (if bool_decide (FullReport.status t = s) then 1 else 0) + tally s ts.
Proof.
  unfold tally. case_bool_decide.
  - rewrite filter_cons_True by done. cbn [length]. lia.
  - rewrite filter_cons_False by done. lia.
Qed.

Lemma fold_count (ts : list FullReport.entry) (st : FullReport.stats) :
  let st' := fold_left FullReport.count ts st in
  FullReport.totalTests st' = FullReport.totalTests st + N.of_nat (length ts)
  /\ FullReport.totalPassed st' = FullReport.totalPassed st + tally passed ts
  /\ FullReport.totalFailed st' = FullReport.totalFailed st + tally failed ts
  /\ FullReport.totalSkipped st' = FullReport.totalSkipped st + tally skipped ts.
Proof.
  revert st. induction ts as [|t ts IH]; intros st; cbn [fold_left].
  - unfold tally. cbn. repeat split; lia.
  - destruct (IH (FullReport.count st t)) as (-> & -> & -> & ->).
    rewrite !tally_cons. cbn [FullReport.count FullReport.totalTests
      FullReport.totalPassed FullReport.totalFailed FullReport.totalSkipped
      length].
    destruct (FullReport.status t);
      repeat split; repeat case_bool_decide; try discriminate; lia.
Qed.

Lemma statistics_flat (tests : list (str * list FullReport.entry)) :
  FullReport.statistics tests
  = fold_left FullReport.count (concat (Map_values tests))
              (FullReport.Stats 0 0 0 0 [] [] []).
Proof.
  unfold FullReport.statistics.
  generalize (FullReport.Stats 0 0 0 0 [] [] []).
  induction (Map_values tests) as [|g gs IH]; intros st; [done|].
  cbn [fold_left concat]. by rewrite fold_left_app, IH.
Qed.

(** The records held after ingestion are those of the events, one per
    event. *)
Lemma ingest_records (events : list (TestCase * TestResult)) :
  concat (Map_values (FullReport.ingest basename show events).1)
  ≡ₚ map (fun ev => full_record basename show ev.1 ev.2) events.
Proof.
  unfold FullReport.ingest.
  assert (forall acc : list (str * list FullReport.entry) * list Tags.warning,
    concat (Map_values
      (fold_left
         (fun acc ev =>
            let '(tests', warns) :=
              FullReport.onTestEnd basename show ev.1 ev.2 acc.1 in
            (tests', acc.2 ++ warns)) events acc).1)
    ≡ₚ map (fun ev => full_record basename show ev.1 ev.2) events
        ++ concat (Map_values acc.1)) as H.
  { induction events as [|ev events IH]; intros acc; cbn [fold_left map]; [done|].
    rewrite IH, full_onTestEnd. cbn [fst].
    rewrite Map_set_push_perm. by rewrite <- Permutation_middle. }
  rewrite H. cbn. by rewrite app_nil_r.
Qed.

Lemma full_record_status (test : TestCase) (result : TestResult) :
  FullReport.status (full_record basename show test result) = status result.
Proof.
  unfold full_record. destruct (bool_decide (status result = failed)); [|done].
  by destruct (full_errors_keeps (full_entry basename show test result)
                 (errors result)) as (_ & _ & _ & ->).
Qed.

Lemma tally_events (s : test_status) (events : list (TestCase * TestResult)) :
  tally s (map (fun ev => full_record basename show ev.1 ev.2) events)
  = N.of_nat (length (filter (fun ev => status ev.2 = s) events)).
Proof.
  induction events as [|ev events IH]; [done|].
  cbn [map]. rewrite tally_cons, IH, full_record_status.
  case_bool_decide.
  - rewrite filter_cons_True by done. cbn [length]. lia.
  - rewrite filter_cons_False by done. lia.
Qed.

(** Each counter is the number of ingested events of its status. *)
Lemma statistics_per_status (events : list (TestCase * TestResult)) :
  let st := FullReport.statistics (FullReport.ingest basename show events).1 in
  FullReport.totalTests st = N.of_nat (length events)
  /\ FullReport.totalPassed st
     = N.of_nat (length (filter (fun ev => status ev.2 = passed) events))
  /\ FullReport.totalFailed st
     = N.of_nat (length (filter (fun ev => status ev.2 = failed) events))
  /\ FullReport.totalSkipped st
     = N.of_nat (length (filter (fun ev => status ev.2 = skipped) events)).
Proof.
  cbn zeta. rewrite statistics_flat.
  destruct (fold_count
              (concat (Map_values (FullReport.ingest basename show events).1))
              (FullReport.Stats 0 0 0 0 [] [] [])) as (-> & -> & -> & ->).
  cbn [FullReport.totalTests FullReport.totalPassed FullReport.totalFailed
       FullReport.totalSkipped].
  unfold tally at 1 2 3. rewrite !ingest_records.
  fold (tally passed (map (fun ev => full_record basename show ev.1 ev.2) events)).
  fold (tally failed (map (fun ev => full_record basename show ev.1 ev.2) events)).
  fold (tally skipped (map (fun ev => full_record basename show ev.1 ev.2) events)).
  rewrite !tally_events, length_map. repeat split; lia.
Qed.

(** C2.  When every ingested event is passed, failed or skipped, the
    three counters of the statistics add up to the total, which is the
    number of ingested events. *)
Theorem statistics_add_up (events : list (TestCase * TestResult)) :
  Forall (fun ev => status ev.2 = passed \/ status ev.2 = failed
                    \/ status ev.2 = skipped) events ->
  let st := FullReport.statistics (FullReport.ingest basename show events).1 in
  FullReport.totalPassed st + FullReport.totalFailed st
    + FullReport.totalSkipped st = FullReport.totalTests st
  /\ FullReport.totalTests st = N.of_nat (length events).
Proof.
  intros Hev. cbn zeta.
  destruct (statistics_per_status events) as (-> & -> & -> & ->).
  split; [|done].
  induction Hev as [|ev events Hs _ IH]; [done|].
  destruct Hs as [Hs|[Hs|Hs]];
    repeat first
      [ rewrite filter_cons_True by (rewrite Hs; done)
      | rewrite filter_cons_False by (rewrite Hs; done) ];
    cbn [length]; lia.
Qed.
End StatisticsFacts.

Lemma statistics_add_up_witness :
  let st := FullReport.statistics
              (FullReport.ingest id (fun _ => [])
                 [(untagged_test, two_errors);
                  (untagged_test,
                   {| Playwright.status := Playwright.passed;
                      Playwright.duration := 3;
                      Playwright.errors := [] |})]).1 in
  FullReport.totalPassed st + FullReport.totalFailed st
    + FullReport.totalSkipped st = FullReport.totalTests st
  /\ FullReport.totalTests st = 2.
Proof.
  apply (statistics_add_up id (fun _ => [])
           [(untagged_test, two_errors);
            (untagged_test,
             {| Playwright.status := Playwright.passed;
                Playwright.duration := 3;
                Playwright.errors := [] |})]).
  constructor; [right; left; reflexivity|].
  constructor; [left; reflexivity|].
  constructor.
Defined.

(** ** Delivery *)

Section DeliveryFacts.
Import Effects.
Variable fullReportHtml : list (str * list FailedReport.entry) -> str.
Variable emailBodyHtml : list (str * list FailedReport.entry) -> str.
Variable textSummary : list (str * list FailedReport.entry) -> str.
Variable teamsPayload : list (str * list FailedReport.entry) -> str.
Variable TypeError : str -> Effects.JsError.

(** What one failed attempt leaves in the trace *)
Definition failed_attempt (text html : str) (retries : nat) (delay : N)
    (attempt : nat) (e : JsError) : list effect :=
  [SendMail text html;
   Print (AttemptFailed attempt e (or_else (response e) (lit "No response")))]
  ++ (if (attempt <? retries)%nat then [Sleep delay] else []).

Lemma attempts_done (text html : str) (retries : nat) (delay : N)
    (attempt : nat) (w : world) (r : run) :
  FailedReport.attempts text html retries delay 0 attempt w r = (inl false, r).
Proof. reflexivity. Qed.

Lemma attempts_failure (text html : str) (retries : nat) (delay : N)
    (n attempt : nat) (w : world) (r : run) (e : JsError) :
  sendMail w (S (sends r)) = Some e ->
  FailedReport.attempts text html retries delay (S n) attempt w r
  = FailedReport.attempts text html retries delay n (S attempt) w
      (Run (trace r ++ failed_attempt text html retries delay attempt e)
           (S (sends r))).
Proof.
  intros H. unfold failed_attempt. cbn [FailedReport.attempts].
  unfold mbind, M_bind, try_catch, transporter_sendMail, print, setTimeout,
    emit, mret, M_ret.
  rewrite H. cbn [trace sends].
  destruct (attempt <? retries)%nat; cbn [trace sends];
    by rewrite <- !app_assoc.
Qed.

Lemma attempts_success (text html : str) (retries : nat) (delay : N)
    (n attempt : nat) (w : world) (r : run) :
  sendMail w (S (sends r)) = None ->
  FailedReport.attempts text html retries delay (S n) attempt w r
  = (inl true,
     Run (trace r ++ [SendMail text html; Print EmailSent]) (S (sends r))).
Proof.
  intros H. cbn [FailedReport.attempts].
  unfold mbind, M_bind, try_catch, transporter_sendMail, print, setTimeout,
    emit, mret, M_ret.
  rewrite H. cbn [trace sends]. by rewrite <- !app_assoc.
Qed.

(** The effects of the mail retry loop *)
Definition mail_effect (e : effect) : Prop :=
  match e with
  | SendMail _ _ | Sleep _ | Print EmailSent | Print (AttemptFailed _ _ _)
  | Print AllAttemptsFailed => True
  | _ => False
  end.

(** The loop never throws and only adds mail effects. *)
Lemma attempts_returns (text html : str) (retries : nat) (delay : N)
    (n attempt : nat) (w : world) (r : run) :
  exists (b : bool) (tr : list effect) (k : nat),
    FailedReport.attempts text html retries delay n attempt w r
    = (inl b, Run (trace r ++ tr) k)
    /\ Forall mail_effect tr.
Proof.
  revert attempt r. induction n as [|n IH]; intros attempt r.
  - exists false, [], (sends r). rewrite attempts_done, app_nil_r.
    by destruct r.
  - destruct (sendMail w (S (sends r))) as [e|] eqn:E.
    + rewrite (attempts_failure _ _ _ _ _ _ _ _ e E).
      destruct (IH (S attempt)
                  (Run (trace r ++ failed_attempt text html retries delay attempt e)
                       (S (sends r)))) as (b & tr & k & -> & Htr).
      exists b, (failed_attempt text html retries delay attempt e ++ tr), k.
      cbn [trace]. rewrite <- app_assoc. split; [done|].
      apply Forall_app. split; [|done].
      unfold failed_attempt. destruct (attempt <? retries)%nat;
        repeat constructor.
    + rewrite (attempts_success _ _ _ _ _ _ _ _ E).
      exists true, [SendMail text html; Print EmailSent], (S (sends r)).
      split; [done|]. repeat constructor.
Qed.

Lemma sendEmailWithRetry_returns (text html : str) (retries : nat)
    (delay : N) (w : world) (r : run) :
  exists (tr : list effect) (k : nat),
    FailedReport.sendEmailWithRetry text html retries delay w r
    = (inl (), Run (trace r ++ tr) k)
    /\ Forall mail_effect tr.
Proof.
  unfold FailedReport.sendEmailWithRetry, mbind, M_bind.
  destruct (attempts_returns text html retries delay retries 1 w r)
    as (b & tr & k & -> & Htr).
  destruct b.
  - by exists tr, k.
  - exists (tr ++ [Print AllAttemptsFailed]), k.
    unfold print, emit. cbn [trace sends]. rewrite <- app_assoc.
    split; [done|]. apply Forall_app. split; [done|]. repeat constructor.
Qed.

(** Whatever the world does, the loop never sends more often than its
    budget allows. *)
Lemma attempts_bounded (text html : str) (retries : nat) (delay : N)
    (n attempt : nat) (w : world) (r : run) :
  (sends (FailedReport.attempts text html retries delay n attempt w r).2
   <= sends r + n)%nat.
Proof.
  revert attempt r. induction n as [|n IH]; intros attempt r.
  - rewrite attempts_done. cbn [snd]. lia.
  - destruct (sendMail w (S (sends r))) as [e|] eqn:E.
    + rewrite (attempts_failure _ _ _ _ _ _ _ _ e E).
      etrans; [apply IH|]. cbn [sends]. lia.
    + rewrite (attempts_success _ _ _ _ _ _ _ _ E). cbn [snd sends]. lia.
Qed.

Lemma sendEmailWithRetry_bounded (text html : str) (retries : nat)
    (delay : N) (w : world) (r : run) :
  (sends (FailedReport.sendEmailWithRetry text html retries delay w r).2
   <= sends r + retries)%nat.
Proof.
  pose proof (attempts_bounded text html retries delay retries 1 w r) as H.
  unfold FailedReport.sendEmailWithRetry, mbind, M_bind.
  destruct (FailedReport.attempts text html retries delay retries 1 w r)
    as [[[|]|e] r']; exact H.
Qed.

(** C4.  The send fails three times and would succeed the fourth time.
    With a budget of 3 the loop sends three times, prints each failure
    with its attempt number, sleeps 1000 ms after the first and the
    second failure, prints the final failure and returns; with a budget
    of 4 it goes on to a fourth send, which succeeds. *)
Theorem retry_budget (w : world) (text html : str) (tr : list effect)
    (e1 e2 e3 : JsError) :
  sendMail w 1 = Some e1 -> sendMail w 2 = Some e2 ->
  sendMail w 3 = Some e3 -> sendMail w 4 = None ->
  FailedReport.sendEmailWithRetry text html 3 1000 w (Run tr 0)
  = (inl (),
     Run (tr ++
          [SendMail text html;
           Print (AttemptFailed 1 e1 (or_else (response e1) (lit "No response")));
           Sleep 1000;
           SendMail text html;
           Print (AttemptFailed 2 e2 (or_else (response e2) (lit "No response")));
           Sleep 1000;
           SendMail text html;
           Print (AttemptFailed 3 e3 (or_else (response e3) (lit "No response")));
           Print AllAttemptsFailed]) 3)
  /\ FailedReport.sendEmailWithRetry text html 4 1000 w (Run tr 0)
     = (inl (),
        Run (tr ++
             [SendMail text html;
              Print (AttemptFailed 1 e1 (or_else (response e1) (lit "No response")));
              Sleep 1000;
              SendMail text html;
              Print (AttemptFailed 2 e2 (or_else (response e2) (lit "No response")));
              Sleep 1000;
              SendMail text html;
              Print (AttemptFailed 3 e3 (or_else (response e3) (lit "No response")));
              Sleep 1000;
              SendMail text html;
              Print EmailSent]) 4).
Proof.
  intros H1 H2 H3 H4.
  unfold FailedReport.sendEmailWithRetry, mbind, M_bind. split.
  - rewrite (attempts_failure _ _ _ _ _ _ _ _ e1) by exact H1.
    rewrite (attempts_failure _ _ _ _ _ _ _ _ e2) by exact H2.
    rewrite (attempts_failure _ _ _ _ _ _ _ _ e3) by exact H3.
    rewrite attempts_done. unfold print, emit, failed_attempt.
    cbn [trace sends Nat.ltb Nat.leb app]. by rewrite <- !app_assoc.
  - rewrite (attempts_failure _ _ _ _ _ _ _ _ e1) by exact H1.
    rewrite (attempts_failure _ _ _ _ _ _ _ _ e2) by exact H2.
    rewrite (attempts_failure _ _ _ _ _ _ _ _ e3) by exact H3.
    rewrite attempts_success by exact H4. unfold failed_attempt.
    cbn [trace sends Nat.ltb Nat.leb app]. by rewrite <- !app_assoc.
Qed.

(** With a budget of at least one the loop starts with a send. *)
Lemma sendEmailWithRetry_sends (text html : str) (n : nat) (delay : N)
    (w : world) (r : run) :
  exists (tr : list effect) (k : nat),
    FailedReport.sendEmailWithRetry text html (S n) delay w r
    = (inl (), Run (trace r ++ SendMail text html :: tr) k)
    /\ Forall mail_effect tr.
Proof.
  unfold FailedReport.sendEmailWithRetry, mbind, M_bind.
  destruct (sendMail w (S (sends r))) as [e|] eqn:E.
  - rewrite (attempts_failure _ _ _ _ _ _ _ _ e E).
    destruct (attempts_returns text html (S n) delay n 2 w
                (Run (trace r ++ failed_attempt text html (S n) delay 1 e)
                     (S (sends r)))) as (b & tr & k & -> & Htr).
    cbn [trace]. unfold failed_attempt. rewrite <- !app_assoc. cbn [app].
    assert (Forall mail_effect
              ((if (1 <? S n)%nat then [Sleep delay] else []) ++ tr)) as Hs.
    { apply Forall_app. split; [|done].
      destruct (1 <? S n)%nat; repeat constructor. }
    destruct b.
    + eexists _, k. split; [reflexivity|].
      constructor; [exact I|exact Hs].
    + unfold print, emit. cbn [trace sends]. rewrite <- !app_assoc. cbn [app].
      eexists _, k. split; [reflexivity|].
      constructor; [exact I|].
      apply Forall_app. split; [exact Hs|]. repeat constructor.
  - rewrite (attempts_success _ _ _ _ _ _ _ _ E).
    exists [Print EmailSent], (S (sends r)). split; [done|]. repeat constructor.
Qed.

(** The webhook channel, lines 615-705 *)
Definition webhook_effects (w : world) (payload : str) : list effect :=
  match WEB_HOOK_URL w with
  | Some (c :: u) =>
      [Post (c :: u) payload;
       Print (match post w with
              | None => TeamsSent
              | Some e => TeamsError (message e) (code e)
                            (or_else (response e) (lit "No response"))
              end)]
  | Some [] | None => [Print WebhookUrlNotDefined]
  end.

Definition report_path : str := lit "costum-report/failed-report.html".

(** *** The columns of lines 129-136 *)

(** The first group titled size comes after a group titled __proto__. *)
Fixpoint size_after_proto (names : list str) : bool :=
  match names with
  | [] => false
  | name :: names' =>
      if decide (name = lit "size") then false
      else if decide (name = lit "__proto__")
      then bool_decide (lit "size" ∈ names')
      else size_after_proto names'
  end.

(** The loop of lines 130-136 from any state of the object *)
Definition keys_from (o : option FailedReport.describe_keys)
    (groups : list (str * list FailedReport.entry))
  : option FailedReport.describe_keys :=
  fold_left
    (fun acc group =>
       match acc with
       | Some o => FailedReport.assign o group.1
                     (FailedReport.customTagKeys group.2)
       | None => None
       end)
    groups o.

Lemma keys_from_thrown (groups : list (str * list FailedReport.entry)) :
  keys_from None groups = None.
Proof. induction groups as [|g groups IH]; [done|exact IH]. Qed.

(** Once [size] is an own property, no assignment throws. *)
Lemma assign_own_size (o : FailedReport.describe_keys) (name : str)
    (keys : gset str) :
  is_Some (FailedReport.own o !! lit "size") ->
  exists o', FailedReport.assign o name keys = Some o'
             /\ is_Some (FailedReport.own o' !! lit "size").
Proof.
  intros Hs. unfold FailedReport.assign.
  assert (is_Some (<[name := keys]> (FailedReport.own o) !! lit "size")) as Hi.
  { apply lookup_insert_is_Some. destruct (decide (name = lit "size"));
      [by left|by right]. }
  destruct (decide (is_Some (FailedReport.own o !! name))) as [Ho|Ho];
    [by eexists|].
  destruct (decide (name = lit "__proto__")); [by eexists|].
  destruct (decide (name = lit "size")) as [->|]; [done|by eexists].
Qed.

Lemma keys_from_own_size (o : FailedReport.describe_keys)
    (groups : list (str * list FailedReport.entry)) :
  is_Some (FailedReport.own o !! lit "size") ->
  is_Some (keys_from (Some o) groups).
Proof.
  revert o. induction groups as [|g groups IH]; intros o Hs; [by eexists|].
  destruct (assign_own_size o g.1 (FailedReport.customTagKeys g.2) Hs)
    as (o' & E & Hs').
  unfold keys_from. cbn [fold_left]. rewrite E. by apply IH.
Qed.

Lemma keys_from_cons (o : FailedReport.describe_keys)
    (g : str * list FailedReport.entry)
    (groups : list (str * list FailedReport.entry)) :
  keys_from (Some o) (g :: groups)
  = keys_from (FailedReport.assign o g.1 (FailedReport.customTagKeys g.2))
      groups.
Proof. reflexivity. Qed.

(** Once the prototype is a [Set], the first assignment under [size]
    throws. *)
Lemma assign_proto (o : FailedReport.describe_keys) (name : str)
    (keys : gset str) :
  FailedReport.own o !! lit "size" = None ->
  is_Some (FailedReport.proto o) ->
  (name = lit "size" /\ FailedReport.assign o name keys = None)
  \/ (name <> lit "size"
      /\ exists o', FailedReport.assign o name keys = Some o'
                    /\ FailedReport.own o' !! lit "size" = None
                    /\ is_Some (FailedReport.proto o')).
Proof.
  intros Hs Hp. unfold FailedReport.assign.
  destruct (decide (is_Some (FailedReport.own o !! name))) as [Ho|Ho].
  { right. assert (name <> lit "size") as Hne.
    { intros E. rewrite E, Hs in Ho. by destruct Ho. }
    split; [done|]. eexists. split; [done|].
    cbn [FailedReport.own FailedReport.proto]. by rewrite lookup_insert_ne. }
  destruct (decide (name = lit "__proto__")) as [E|E].
  { right. split; [by rewrite E|]. eexists. split; [done|].
    cbn [FailedReport.own FailedReport.proto]. split; [done|by eexists]. }
  destruct (decide (name = lit "size")) as [E'|E'].
  { left. split; [done|]. by destruct Hp as [s ->]. }
  right. split; [done|]. eexists. split; [done|].
  cbn [FailedReport.own FailedReport.proto]. by rewrite lookup_insert_ne.
Qed.

Lemma keys_from_proto (o : FailedReport.describe_keys)
    (groups : list (str * list FailedReport.entry)) :
  FailedReport.own o !! lit "size" = None ->
  is_Some (FailedReport.proto o) ->
  keys_from (Some o) groups = None <-> lit "size" ∈ map fst groups.
Proof.
  revert o. induction groups as [|g groups IH]; intros o Hs Hp.
  - cbn. split; [done|]. by intros ?%elem_of_nil.
  - rewrite keys_from_cons. cbn [map]. rewrite elem_of_cons.
    destruct (assign_proto o g.1 (FailedReport.customTagKeys g.2) Hs Hp)
      as [[E ->]|(Hne & o' & -> & Hs' & Hp')].
    + rewrite keys_from_thrown. split; [by left|done].
    + rewrite (IH o' Hs' Hp'). split; [by right|]. by intros [?|?].
Qed.

(** While the prototype is [Object.prototype], only a group titled
    __proto__ changes what a later group titled size does. *)
Lemma assign_plain (o : FailedReport.describe_keys) (name : str)
    (keys : gset str) :
  FailedReport.own o !! lit "size" = None ->
  FailedReport.own o !! lit "__proto__" = None ->
  FailedReport.proto o = None ->
  exists o', FailedReport.assign o name keys = Some o'
    /\ if decide (name = lit "size")
       then is_Some (FailedReport.own o' !! lit "size")
       else if decide (name = lit "__proto__")
       then FailedReport.own o' !! lit "size" = None
            /\ is_Some (FailedReport.proto o')
       else FailedReport.own o' !! lit "size" = None
            /\ FailedReport.own o' !! lit "__proto__" = None
            /\ FailedReport.proto o' = None.
Proof.
  intros Hs Hu Hp. unfold FailedReport.assign.
  destruct (decide (name = lit "size")) as [E|E].
  { rewrite E, Hs, Hp.
    destruct (decide (is_Some (@None (gset str)))) as [[? [=]]|_].
    destruct (decide (lit "size" = lit "__proto__")) as [[=]|_].
    eexists. split; [done|]. cbn [FailedReport.own].
    rewrite lookup_insert_eq. by eexists. }
  destruct (decide (name = lit "__proto__")) as [E'|E'].
  { rewrite E', Hu.
    destruct (decide (is_Some (@None (gset str)))) as [[? [=]]|_].
    eexists. split; [done|]. cbn [FailedReport.own FailedReport.proto].
    split; [done|by eexists]. }
  exists (FailedReport.DescribeKeys (<[name := keys]> (FailedReport.own o)) None).
  split.
  - rewrite Hp. by destruct (decide (is_Some (FailedReport.own o !! name))).
  - cbn [FailedReport.own FailedReport.proto].
    by rewrite !lookup_insert_ne.
Qed.

Lemma keys_from_plain (o : FailedReport.describe_keys)
    (groups : list (str * list FailedReport.entry)) :
  FailedReport.own o !! lit "size" = None ->
  FailedReport.own o !! lit "__proto__" = None ->
  FailedReport.proto o = None ->
  keys_from (Some o) groups = None
  <-> size_after_proto (map fst groups) = true.
Proof.
  revert o. induction groups as [|g groups IH]; intros o Hs Hu Hp; [done|].
  rewrite keys_from_cons. cbn [map size_after_proto].
  destruct (assign_plain o g.1 (FailedReport.customTagKeys g.2) Hs Hu Hp)
    as (o' & -> & H).
  destruct (decide (g.1 = lit "size")) as [E|E].
  - destruct (keys_from_own_size o' groups H) as [x ->]. done.
  - destruct (decide (g.1 = lit "__proto__")) as [E'|E'].
    + destruct H as [Hs' Hp'].
      by rewrite (keys_from_proto o' groups Hs' Hp'), bool_decide_eq_true.
    + destruct H as (Hs' & Hu' & Hp'). by apply IH.
Qed.

(** The column computation throws exactly when the first group titled
    size comes after a group titled __proto__. *)
Lemma customTagKeysByDescribe_throws
    (failedTests : list (str * list FailedReport.entry)) :
  FailedReport.customTagKeysByDescribe failedTests = None
  <-> size_after_proto (map fst failedTests) = true.
Proof. by apply (keys_from_plain (FailedReport.DescribeKeys ∅ None)). Qed.

Lemma customTagKeysByDescribe_returns
    (failedTests : list (str * list FailedReport.entry)) :
  size_after_proto (map fst failedTests) = false ->
  is_Some (FailedReport.customTagKeysByDescribe failedTests).
Proof.
  intros H.
  destruct (FailedReport.customTagKeysByDescribe failedTests) eqn:E;
    [by eexists|].
  apply customTagKeysByDescribe_throws in E. congruence.
Qed.

(** *** The course of [onEnd] *)

(** A throw at line 135 rejects [onEnd] before any effect. *)
Lemma onEnd_throws (w : world) (r : run)
    (failedTests : list (str * list FailedReport.entry)) :
  size_after_proto (map fst failedTests) = true ->
  FailedReport.onEnd fullReportHtml emailBodyHtml textSummary teamsPayload
    TypeError failedTests w r
  = (inr (TypeError (lit "size")), r).
Proof.
  intros H. destruct failedTests as [|g gs]; [done|].
  apply customTagKeysByDescribe_throws in H.
  unfold FailedReport.onEnd. unfold mbind at 1. unfold M_bind.
  by rewrite H.
Qed.

(** A failing write rejects [onEnd] with the error of the write. *)
Lemma onEnd_write_fails (w : world) (e : JsError)
    (failedTests : list (str * list FailedReport.entry)) :
  failedTests <> [] ->
  size_after_proto (map fst failedTests) = false ->
  writeFileSync w report_path = Some e ->
  FailedReport.onEnd fullReportHtml emailBodyHtml textSummary teamsPayload
    TypeError failedTests w (Run [] 0)
  = (inr e, Run [WriteFile report_path (fullReportHtml failedTests)] 0).
Proof.
  intros Hne Hk Hw. destruct failedTests as [|g gs]; [done|].
  destruct (customTagKeysByDescribe_returns _ Hk) as [o Ho].
  unfold FailedReport.onEnd, mbind, M_bind, mret, M_ret, fs_writeFileSync,
    attempt. rewrite Ho. fold report_path. by rewrite Hw.
Qed.

(** Once the report is written, [onEnd] runs the webhook channel, then
    verifies the SMTP connection, and sends only when that succeeds. *)
Lemma onEnd_channels (w : world)
    (failedTests : list (str * list FailedReport.entry)) :
  failedTests <> [] ->
  size_after_proto (map fst failedTests) = false ->
  writeFileSync w report_path = None ->
  FailedReport.onEnd fullReportHtml emailBodyHtml textSummary teamsPayload
    TypeError failedTests w (Run [] 0)
  = match verify w with
    | Some e =>
        (inl (),
         Run ([WriteFile report_path (fullReportHtml failedTests);
               Print ReportGenerated]
              ++ webhook_effects w (teamsPayload failedTests)
              ++ [Verify;
                  Print (SmtpVerifyError e
                           (or_else (response e) (lit "No response")))]) 0)
    | None =>
        FailedReport.sendEmailWithRetry (textSummary failedTests)
          (emailBodyHtml failedTests) 3 1000 w
          (Run ([WriteFile report_path (fullReportHtml failedTests);
                 Print ReportGenerated]
                ++ webhook_effects w (teamsPayload failedTests)
                ++ [Verify; Print SmtpVerified]) 0)
    end.
Proof.
  intros Hne Hk Hw. destruct failedTests as [|g gs]; [done|].
  destruct (customTagKeysByDescribe_returns _ Hk) as [o Ho].
  unfold FailedReport.onEnd, webhook_effects.
  unfold mbind, M_bind, mret, M_ret, try_catch, fs_writeFileSync, axios_post,
    transporter_verify, attempt, print, emit, webhookUrl.
  rewrite Ho. fold report_path. rewrite Hw. cbn [trace sends app].
  destruct (WEB_HOOK_URL w) as [[|c u]|]; cbn [trace sends app];
    try destruct (post w); cbn [trace sends app];
    destruct (verify w); cbn [trace sends app]; reflexivity.
Qed.

(** Counting the effects of one kind in a trace *)
Definition occurrences (f : effect -> bool) (tr : list effect) : nat :=
  length (filter (fun e => f e = true) tr).

Definition is_write (e : effect) : bool :=
  match e with WriteFile _ _ => true | _ => false end.
Definition is_verify (e : effect) : bool :=
  match e with Verify => true | _ => false end.
Definition is_send (e : effect) : bool :=
  match e with SendMail _ _ => true | _ => false end.
Definition is_post (e : effect) : bool :=
  match e with Post _ _ => true | _ => false end.
Definition is_verify_error (e : effect) : bool :=
  match e with Print (SmtpVerifyError _ _) => true | _ => false end.

Lemma occurrences_app (f : effect -> bool) (t1 t2 : list effect) :
  occurrences f (t1 ++ t2) = (occurrences f t1 + occurrences f t2)%nat.
Proof. unfold occurrences. by rewrite filter_app, length_app. Qed.

Lemma occurrences_cons (f : effect -> bool) (e : effect)
    (tr : list effect) :
  occurrences f (e :: tr)
  = ((if f e then 1 else 0) + occurrences f tr)%nat.
Proof.
  unfold occurrences. destruct (f e) eqn:E.
  - by rewrite filter_cons_True by done.
  - by rewrite filter_cons_False by congruence.
Qed.

Lemma occurrences_none (f : effect -> bool) (tr : list effect) :
  Forall (fun e => f e = false) tr -> occurrences f tr = 0%nat.
Proof.
  unfold occurrences. induction 1 as [|e tr He _ IH]; [done|].
  rewrite filter_cons_False by congruence. exact IH.
Qed.

Lemma mail_effects_only (f : effect -> bool) (tr : list effect) :
  (forall e, mail_effect e -> f e = false) ->
  Forall mail_effect tr -> occurrences f tr = 0%nat.
Proof.
  intros Hf Htr. apply occurrences_none.
  eapply Forall_impl; [exact Htr|]. exact Hf.
Qed.

Lemma mail_not_verify (e : effect) : mail_effect e -> is_verify e = false.
Proof. by destruct e as [[]| | | | |]. Qed.
Lemma mail_not_post (e : effect) : mail_effect e -> is_post e = false.
Proof. by destruct e as [[]| | | | |]. Qed.
Lemma mail_not_write (e : effect) : mail_effect e -> is_write e = false.
Proof. by destruct e as [[]| | | | |]. Qed.

Lemma webhook_occurrences (w : world) (payload : str) :
  occurrences is_verify (webhook_effects w payload) = 0%nat
  /\ occurrences is_send (webhook_effects w payload) = 0%nat
  /\ occurrences is_verify_error (webhook_effects w payload) = 0%nat.
Proof.
  unfold webhook_effects.
  destruct (WEB_HOOK_URL w) as [[|c u]|]; [done| |done].
  by destruct (post w).
Qed.

(** The three ways in which [onEnd] stops before the channels: nothing to
    report, a throw at line 135, a failing write.  None of them leaves a
    successful write or a POST in the trace. *)
Lemma onEnd_stops_early (w : world)
    (failedTests : list (str * list FailedReport.entry)) :
  failedTests = [] \/ size_after_proto (map fst failedTests) = true
  \/ is_Some (writeFileSync w report_path) ->
  let out := FailedReport.onEnd fullReportHtml emailBodyHtml textSummary
               teamsPayload TypeError failedTests w (Run [] 0) in
  occurrences is_post (trace out.2) = 0%nat
  /\ (writeFileSync w report_path = None ->
      occurrences is_write (trace out.2) = 0%nat).
Proof.
  intros H. cbn zeta.
  destruct failedTests as [|g gs]; [done|].
  destruct (size_after_proto (map fst (g :: gs))) eqn:Hk.
  { by rewrite onEnd_throws. }
  destruct H as [H|[H|[e He]]]; [done|done|].
  rewrite (onEnd_write_fails w e) by done.
  split; [done|]. intros Hw. congruence.
Qed.

(** A successful write, or a POST, is found only in a run that has
    something to report and whose column computation returned. *)
Lemma written_reaches_channels (w : world)
    (failedTests : list (str * list FailedReport.entry)) :
  (0 < occurrences is_write
         (trace (FailedReport.onEnd fullReportHtml emailBodyHtml textSummary
                   teamsPayload TypeError failedTests w (Run [] 0)).2))%nat ->
  writeFileSync w report_path = None ->
  failedTests <> [] /\ size_after_proto (map fst failedTests) = false.
Proof.
  intros Hwritten Hw.
  destruct failedTests as [|g gs].
  { destruct (onEnd_stops_early w [] (or_introl eq_refl)) as [_ H0].
    specialize (H0 Hw). lia. }
  destruct (size_after_proto (map fst (g :: gs))) eqn:Hk; [|done].
  destruct (onEnd_stops_early w (g :: gs) (or_intror (or_introl Hk)))
    as [_ H0].
  specialize (H0 Hw). lia.
Qed.

Lemma posted_reaches_channels (w : world)
    (failedTests : list (str * list FailedReport.entry)) :
  (0 < occurrences is_post
         (trace (FailedReport.onEnd fullReportHtml emailBodyHtml textSummary
                   teamsPayload TypeError failedTests w (Run [] 0)).2))%nat ->
  failedTests <> [] /\ size_after_proto (map fst failedTests) = false
  /\ writeFileSync w report_path = None.
Proof.
  intros Hposted.
  destruct failedTests as [|g gs].
  { destruct (onEnd_stops_early w [] (or_introl eq_refl)) as [H0 _]. lia. }
  destruct (size_after_proto (map fst (g :: gs))) eqn:Hk.
  { destruct (onEnd_stops_early w (g :: gs) (or_intror (or_introl Hk)))
      as [H0 _]. lia. }
  destruct (writeFileSync w report_path) as [e|] eqn:Hw; [|done].
  destruct (onEnd_stops_early w (g :: gs)) as [H0 _]; [|lia].
  right. right. rewrite Hw. by eexists.
Qed.

(** C5, as amended.  In a run whose report file was written (a write was
    attempted, and it did not fail) there is a failed-test record, and the
    SMTP verification is attempted exactly once, whatever the webhook
    configuration and outcome; when it fails, [onEnd] prints the failure
    once, as its last effect, makes no send attempt and returns.  A run
    without a failed-test record prints that all tests passed and reaches
    neither channel. *)
Theorem verification_failure_abandons_mail (w : world)
    (failedTests : list (str * list FailedReport.entry)) :
  let out := FailedReport.onEnd fullReportHtml emailBodyHtml textSummary
               teamsPayload TypeError failedTests w (Run [] 0) in
  (0 < occurrences is_write (trace out.2))%nat ->
  writeFileSync w report_path = None ->
  (failedTests <> []
   /\ occurrences is_verify (trace out.2) = 1%nat
   /\ forall e, verify w = Some e ->
        out.1 = inl ()
        /\ occurrences is_send (trace out.2) = 0%nat
        /\ sends out.2 = 0%nat
        /\ occurrences is_verify_error (trace out.2) = 1%nat
        /\ last (trace out.2)
           = Some (Print (SmtpVerifyError e
                            (or_else (response e) (lit "No response")))))
  /\ FailedReport.onEnd fullReportHtml emailBodyHtml textSummary
       teamsPayload TypeError [] w (Run [] 0)
     = (inl (), Run [Print AllTestsPassed] 0).
Proof.
  cbn zeta. intros Hwritten Hw. split; [|done].
  destruct (written_reaches_channels w failedTests Hwritten Hw) as [Hne Hk].
  split; [done|]. clear Hwritten.
  rewrite onEnd_channels by done.
  destruct (webhook_occurrences w (teamsPayload failedTests))
    as (Hv & Hs & He).
  destruct (verify w) as [e|] eqn:E.
  - cbn [fst snd trace sends]. split.
    + rewrite !occurrences_app, Hv. reflexivity.
    + intros e' [= <-]. split; [done|].
      rewrite !occurrences_app, Hs, He.
      repeat split; try reflexivity.
      change [Verify; Print (SmtpVerifyError e
                (or_else (response e) (lit "No response")))]
        with ([Verify] ++ [Print (SmtpVerifyError e
                (or_else (response e) (lit "No response")))]).
      rewrite !app_assoc. apply last_snoc.
  - destruct (sendEmailWithRetry_returns (textSummary failedTests)
                (emailBodyHtml failedTests) 3 1000 w
                (Run ([WriteFile report_path (fullReportHtml failedTests);
                       Print ReportGenerated]
                      ++ webhook_effects w (teamsPayload failedTests)
                      ++ [Verify; Print SmtpVerified]) 0))
      as (tr & k & -> & Htr).
    cbn [fst snd trace sends]. split; [|done].
    rewrite !occurrences_app, Hv.
    rewrite (mail_effects_only is_verify tr mail_not_verify Htr).
    reflexivity.
Qed.

(** C6.  Whenever [onEnd] attempts the POST and the POST fails, the
    webhook is configured, the POST is the third effect, after the write of
    the report and its confirmation; [onEnd] prints the message, the code
    and the response of the error, or the words No response, and goes on to
    the SMTP verification; it posts no second time and does not throw; when
    the verification succeeds the mail is sent. *)
Theorem webhook_failure_is_swallowed (w : world)
    (failedTests : list (str * list FailedReport.entry)) (e : JsError) :
  let out := FailedReport.onEnd fullReportHtml emailBodyHtml textSummary
               teamsPayload TypeError failedTests w (Run [] 0) in
  (0 < occurrences is_post (trace out.2))%nat ->
  post w = Some e ->
  exists (url : str) (tr : list effect) (k : nat),
    WEB_HOOK_URL w = Some url
    /\ out
       = (inl (),
          Run ([WriteFile report_path (fullReportHtml failedTests);
                Print ReportGenerated;
                Post url (teamsPayload failedTests);
                Print (TeamsError (message e) (code e)
                         (or_else (response e) (lit "No response")));
                Verify] ++ tr) k)
    /\ occurrences is_post tr = 0%nat
    /\ (verify w = None ->
        exists tr', tr = Print SmtpVerified
                         :: SendMail (textSummary failedTests)
                                     (emailBodyHtml failedTests) :: tr')
    /\ (forall e', verify w = Some e' ->
        tr = [Print (SmtpVerifyError e'
                       (or_else (response e') (lit "No response")))]).
Proof.
  cbn zeta. intros Hposted Hpost.
  destruct (posted_reaches_channels w failedTests Hposted) as (Hne & Hk & Hw).
  revert Hposted. rewrite onEnd_channels by done.
  unfold webhook_effects. rewrite Hpost.
  destruct (WEB_HOOK_URL w) as [[|c u]|] eqn:Hurl.
  - (* the empty URL: no POST *)
    intros Hposted. exfalso. revert Hposted.
    destruct (verify w) as [e'|] eqn:E;
      [cbn [snd trace app]; rewrite !occurrences_cons; cbn; lia|].
    destruct (sendEmailWithRetry_returns (textSummary failedTests)
                (emailBodyHtml failedTests) 3 1000 w
                (Run ([WriteFile report_path (fullReportHtml failedTests);
                       Print ReportGenerated]
                      ++ [Print WebhookUrlNotDefined]
                      ++ [Verify; Print SmtpVerified]) 0))
      as (tr & k & -> & Htr).
    cbn [snd trace app]. rewrite !occurrences_cons.
    rewrite (mail_effects_only is_post tr mail_not_post Htr). cbn. lia.
  - intros _. exists (c :: u).
    destruct (verify w) as [e'|] eqn:E.
    + eexists _, 0%nat. split; [done|]. split; [reflexivity|].
      split; [done|]. split; [done|]. by intros ? [= <-].
    + destruct (sendEmailWithRetry_sends (textSummary failedTests)
                  (emailBodyHtml failedTests) 2 1000 w
                  (Run ([WriteFile report_path (fullReportHtml failedTests);
                         Print ReportGenerated]
                        ++ [Post (c :: u) (teamsPayload failedTests);
                            Print (TeamsError (message e) (code e)
                                     (or_else (response e) (lit "No response")))]
                        ++ [Verify; Print SmtpVerified]) 0))
        as (tr & k & -> & Htr).
      exists (Print SmtpVerified
              :: SendMail (textSummary failedTests) (emailBodyHtml failedTests)
              :: tr), k.
      split; [done|]. split; [done|]. split; [|split; [by eexists|done]].
      change (occurrences is_post tr = 0%nat).
      exact (mail_effects_only is_post tr mail_not_post Htr).
  - (* no URL: no POST *)
    intros Hposted. exfalso. revert Hposted.
    destruct (verify w) as [e'|] eqn:E;
      [cbn [snd trace app]; rewrite !occurrences_cons; cbn; lia|].
    destruct (sendEmailWithRetry_returns (textSummary failedTests)
                (emailBodyHtml failedTests) 3 1000 w
                (Run ([WriteFile report_path (fullReportHtml failedTests);
                       Print ReportGenerated]
                      ++ [Print WebhookUrlNotDefined]
                      ++ [Verify; Print SmtpVerified]) 0))
      as (tr & k & -> & Htr).
    cbn [snd trace app]. rewrite !occurrences_cons.
    rewrite (mail_effects_only is_post tr mail_not_post Htr). cbn. lia.
Qed.
End DeliveryFacts.

(** Sample worlds and inputs *)

Definition refused : Effects.JsError :=
  {| Effects.message := lit "connect ECONNREFUSED";
     Effects.code := Some (lit "ECONNREFUSED");
     Effects.response := None;
     Effects.stack := None |}.

(** The webhook is configured and rejects the POST; the SMTP server
    accepts the connection; the first three sends fail. *)
Definition three_failures : Effects.world :=
  {| Effects.WEB_HOOK_URL := Some (lit "https://hooks.example/teams");
     Effects.writeFileSync := fun _ => None;
     Effects.post := Some refused;
     Effects.verify := None;
     Effects.sendMail := fun n => if (n <=? 3)%nat then Some refused else None |}.

(** The SMTP server refuses the connection. *)
Definition smtp_down : Effects.world :=
  {| Effects.WEB_HOOK_URL := None;
     Effects.writeFileSync := fun _ => None;
     Effects.post := None;
     Effects.verify := Some refused;
     Effects.sendMail := fun _ => None |}.

Definition no_render : list (str * list FailedReport.entry) -> str :=
  fun _ => [].

(** The TypeError of an assignment to a getter-only property, as V8
    words it *)
Definition type_error (name : str) : Effects.JsError :=
  {| Effects.message :=
       lit "Cannot set property " ++ name
       ++ lit " of #<Object> which has only a getter";
     Effects.code := None;
     Effects.response := None;
     Effects.stack := None |}.

Definition one_group : list (str * list FailedReport.entry) :=
  (FailedReport.onTestEnd id (fun _ => []) untagged_test two_errors []).1.

Lemma retry_budget_witness :
  Effects.sends
    (FailedReport.sendEmailWithRetry [] [] 3 1000 three_failures
       (Effects.Run [] 0)).2 = 3%nat
  /\ Effects.sends
       (FailedReport.sendEmailWithRetry [] [] 4 1000 three_failures
          (Effects.Run [] 0)).2 = 4%nat.
Proof.
  destruct (retry_budget three_failures [] [] [] refused refused refused
              eq_refl eq_refl eq_refl eq_refl) as [H3 H4].
  rewrite H3, H4. split; reflexivity.
Defined.

Lemma verification_failure_abandons_mail_witness :
  let out := FailedReport.onEnd no_render no_render no_render no_render
               type_error one_group smtp_down (Effects.Run [] 0) in
  (0 < occurrences is_write (Effects.trace out.2))%nat
  /\ Effects.writeFileSync smtp_down report_path = None
  /\ occurrences is_verify (Effects.trace out.2) = 1%nat
  /\ occurrences is_send (Effects.trace out.2) = 0%nat
  /\ out.1 = inl ().
Proof.
  assert (0 < occurrences is_write
                (Effects.trace
                   (FailedReport.onEnd no_render no_render no_render no_render
                      type_error one_group smtp_down (Effects.Run [] 0)).2))%nat
    as Hwritten by (vm_compute; lia).
  destruct (verification_failure_abandons_mail no_render no_render no_render
              no_render type_error smtp_down one_group Hwritten eq_refl)
    as [(_ & H1 & H2) _].
  destruct (H2 refused eq_refl) as (H0 & H3 & _).
  split; [exact Hwritten|]. split; [reflexivity|].
  split; [exact H1|]. split; [exact H3|exact H0].
Defined.

(** C5 as stated fails: when no test failed, [onEnd] returns at line 120
    and never reaches the SMTP verification. *)
Lemma verification_always_attempted_counterexample :
  FailedReport.onEnd no_render no_render no_render no_render type_error []
    smtp_down (Effects.Run [] 0)
  = (inl (), Effects.Run [Effects.Print Effects.AllTestsPassed] 0)
  /\ occurrences is_verify [Effects.Print Effects.AllTestsPassed] = 0%nat.
Proof. split; reflexivity. Qed.

Lemma webhook_failure_is_swallowed_witness :
  (0 < occurrences is_post
         (Effects.trace
            (FailedReport.onEnd no_render no_render no_render no_render
               type_error one_group three_failures (Effects.Run [] 0)).2))%nat
  /\ Effects.post three_failures = Some refused
  /\ exists tr k,
       FailedReport.onEnd no_render no_render no_render no_render type_error
         one_group three_failures (Effects.Run [] 0)
       = (inl (),
          Effects.Run
            ([Effects.WriteFile report_path [];
              Effects.Print Effects.ReportGenerated;
              Effects.Post (lit "https://hooks.example/teams") [];
              Effects.Print
                (Effects.TeamsError (lit "connect ECONNREFUSED")
                   (Some (lit "ECONNREFUSED")) (lit "No response"));
              Effects.Verify] ++ tr) k)
       /\ occurrences is_post tr = 0%nat.
Proof.
  assert (0 < occurrences is_post
                (Effects.trace
                   (FailedReport.onEnd no_render no_render no_render no_render
                      type_error one_group three_failures
                      (Effects.Run [] 0)).2))%nat
    as Hposted by (vm_compute; lia).
  destruct (webhook_failure_is_swallowed no_render no_render no_render no_render
              type_error three_failures one_group refused Hposted eq_refl)
    as (url & tr & k & Hurl & H1 & H2 & _).
  injection Hurl as <-.
  split; [exact Hposted|]. split; [reflexivity|].
  exists tr, k. split; [exact H1|exact H2].
Defined.

(** ** Pattern matching on error messages *)

Section RegexFacts.

(** A greedy class iteration over a run of the class that is followed
    by the end of the input or by a code unit outside the class. *)
Lemma star_run (p : char -> bool) (xs rest : str)
    (k : str -> option matched) (m : matched) :
  Forall (fun c => p c = true) xs ->
  (forall c t, rest = c :: t -> p c = false) ->
  k rest = Some m ->
  star p (xs ++ rest) k = Some m.
Proof.
  intros Hxs Hrest Hk. induction Hxs as [|x xs Hx _ IH]; cbn [app].
  - destruct rest as [|c t]; cbn [star]; [done|].
    by rewrite (Hrest c t eq_refl).
  - cbn [star]. by rewrite Hx, IH.
Qed.

(** What a successful iteration consumed *)
Lemma star_inv (p : char -> bool) (s : str) (k : str -> option matched)
    (m : matched) :
  star p s k = Some m ->
  exists xs rest, s = xs ++ rest /\ Forall (fun c => p c = true) xs
                  /\ k rest = Some m.
Proof.
  induction s as [|c s IH]; cbn [star]; intros H.
  - by exists [], [].
  - destruct (p c) eqn:Hc; [|by exists [], (c :: s)].
    destruct (star p s k) as [m'|] eqn:E; [|by exists [], (c :: s)].
    injection H as ->. destruct (IH eq_refl) as (xs & rest & -> & Hxs & Hk).
    exists (c :: xs), rest. split; [done|]. split; [by constructor|done].
Qed.

Lemma rmatch_word (cls : ascii -> char -> bool) (w : string) (pre s : str)
    (cap : option str) (k : str -> option str -> option matched) :
  Forall2 (fun a c => cls a c = true) (list_ascii_of_string w) pre ->
  rmatch (word cls w) (pre ++ s) cap k = k s cap.
Proof.
  revert pre. induction w as [|a w IH]; intros pre H; cbn in H.
  - by apply Forall2_nil_inv_l in H as ->.
  - apply Forall2_cons_inv_l in H as (c & pre' & Hc & Hpre & ->).
    cbn [word rmatch app]. rewrite Hc. by apply IH.
Qed.

Lemma rmatch_word_miss (cls : ascii -> char -> bool) (a : ascii)
    (w : string) (c : char) (s : str) (cap : option str)
    (k : str -> option str -> option matched) :
  cls a c = false ->
  rmatch (word cls (String a w)) (c :: s) cap k = None.
Proof. intros H. cbn [word rmatch]. by rewrite H. Qed.

(** The scan after a match, and where there is none *)
Lemma scan_skip (r : regex) (xs rest : str) :
  scan r (length xs) (xs ++ rest) = scan r 0 rest.
Proof. induction xs as [|x xs IH]; [done|]. exact IH. Qed.

Lemma scan_hit (r : regex) (c : char) (whole rest : str) (cap : option str) :
  exec r (c :: whole ++ rest) = Some (cap, rest) ->
  scan r 0 (c :: whole ++ rest) = Hit (c :: whole) cap :: scan r 0 rest.
Proof.
  intros H. cbn [scan]. rewrite H.
  replace (length (c :: whole ++ rest) - length rest)%nat
    with (S (length whole)) by (cbn [length]; rewrite length_app; lia).
  rewrite scan_skip. f_equal. f_equal.
  change (c :: whole ++ rest) with ((c :: whole) ++ rest).
  apply (take_app_length (c :: whole)).
Qed.

Lemma scan_miss (r : regex) (c : char) (s : str) :
  exec r (c :: s) = None -> scan r 0 (c :: s) = Lit c :: scan r 0 s.
Proof. intros H. cbn [scan]. by rewrite H. Qed.

Lemma matchAll_hit (r : regex) (c : char) (whole rest : str)
    (cap : option str) :
  exec r (c :: whole ++ rest) = Some (cap, rest) ->
  matchAll r (c :: whole ++ rest) = cap :: matchAll r rest.
Proof. intros H. unfold matchAll. by rewrite (scan_hit _ _ _ _ cap). Qed.

Lemma matchAll_miss (r : regex) (c : char) (s : str) :
  exec r (c :: s) = None -> matchAll r (c :: s) = matchAll r s.
Proof. intros H. unfold matchAll. by rewrite scan_miss. Qed.

Lemma replaceAll_hit (r : regex) (rep : str) (c : char) (whole rest : str)
    (cap : option str) :
  exec r (c :: whole ++ rest) = Some (cap, rest) ->
  replaceAll r rep (c :: whole ++ rest) = rep ++ replaceAll r rep rest.
Proof. intros H. unfold replaceAll. by rewrite (scan_hit _ _ _ _ cap). Qed.

Lemma replaceAll_miss (r : regex) (rep : str) (c : char) (s : str) :
  exec r (c :: s) = None ->
  replaceAll r rep (c :: s) = c :: replaceAll r rep s.
Proof. intros H. unfold replaceAll. by rewrite scan_miss. Qed.

(** A pattern that cannot start on the pair of code units [c1 c2]
    when [start c1 c2] is false, nor match less than two code units. *)
Definition starts_with_pair (r : regex) (start : char -> char -> bool)
  : Prop :=
  exec r [] = None
  /\ (forall c, exec r [c] = None)
  /\ (forall c1 c2 s, start c1 c2 = false -> exec r (c1 :: c2 :: s) = None).

(** No pair of neighbours of [s], nor its last code unit with [next],
    starts a match. *)
Fixpoint calm (start : char -> char -> bool) (s : str) (next : option char)
  : bool :=
  match s with
  | [] => true
  | c1 :: s' =>
      negb (match s' with
            | c2 :: _ => start c1 c2
            | [] => match next with Some c2 => start c1 c2 | None => false end
            end)
      && calm start s' next
  end.


Lemma scan_calm (r : regex) (start : char -> char -> bool) (pre rest : str) :
  starts_with_pair r start ->
  calm start pre (head rest) = true ->
  scan r 0 (pre ++ rest) = map Lit pre ++ scan r 0 rest.
Proof.
  intros (H0 & H1 & H2) Hc. induction pre as [|c pre IH]; [done|].
  cbn [calm] in Hc. apply andb_true_iff in Hc as [Hc Hpre].
  apply negb_true_iff in Hc.
  cbn [app map]. rewrite scan_miss; [by rewrite IH|].
  destruct pre as [|c2 pre]; cbn [app].
  - destruct rest as [|c2 rest]; [apply H1|]. by apply H2.
  - by apply H2.
Qed.

Lemma matchAll_calm (r : regex) (start : char -> char -> bool)
    (pre rest : str) :
  starts_with_pair r start ->
  calm start pre (head rest) = true ->
  matchAll r (pre ++ rest) = matchAll r rest.
Proof.
  intros Hr Hc. unfold matchAll. rewrite (scan_calm r start) by done.
  rewrite omap_app. replace (omap _ (map Lit pre)) with (@nil (option str));
    [done|].
  clear Hc. induction pre as [|c pre IH]; [done|]. exact IH.
Qed.

Lemma matchAll_nil (r : regex) : exec r [] = None -> matchAll r [] = [].
Proof. intros H. unfold matchAll. cbn [scan]. by rewrite H. Qed.

(** *** Escape sequences *)

(** A run of escape sequences: each is ESC, an opening bracket,
    digits and semicolons, and a final letter. *)
Inductive escapes : str -> Prop :=
| escapes_nil : escapes []
| escapes_cons (ps : str) (l : char) (rest : str) :
    Forall (fun c => is_param c = true) ps ->
    is_letter l = true ->
    escapes rest ->
    escapes (27 :: 91 :: ps ++ l :: rest).

Lemma letter_not_param (l : char) : is_letter l = true -> is_param l = false.
Proof.
  unfold is_letter, is_param, is_lower, is_upper, is_digit. intros H.
  apply orb_true_iff in H.
  apply orb_false_iff. rewrite andb_false_iff, !N.leb_gt, N.eqb_neq.
  rewrite !andb_true_iff, !N.leb_le in H. lia.
Qed.

Lemma exec_ansi (ps : str) (l : char) (rest : str) :
  Forall (fun c => is_param c = true) ps ->
  is_letter l = true ->
  exec ansi_re (27 :: 91 :: ps ++ l :: rest) = Some (None, rest).
Proof.
  intros Hps Hl. unfold exec, ansi_re. cbn [rmatch].
  rewrite N.eqb_refl. replace (is_char "[" 91) with true by reflexivity.
  apply star_run; [done| |].
  - intros c t [= <- _]. by apply letter_not_param.
  - by rewrite Hl.
Qed.

Lemma exec_ansi_miss (c : char) (s : str) :
  c <> 27 -> exec ansi_re (c :: s) = None.
Proof.
  intros H. unfold exec, ansi_re. cbn [rmatch].
  by rewrite (proj2 (N.eqb_neq 27 c)) by congruence.
Qed.

Lemma strip_nil : stripAnsiCodes [] = [].
Proof. reflexivity. Qed.

Lemma strip_plain (xs rest : str) :
  Forall (fun c => c <> 27) xs ->
  stripAnsiCodes (xs ++ rest) = xs ++ stripAnsiCodes rest.
Proof.
  unfold stripAnsiCodes. induction 1 as [|x xs Hx _ IH]; [done|].
  cbn [app]. rewrite replaceAll_miss by by apply exec_ansi_miss.
  by rewrite IH.
Qed.

Lemma strip_escapes (a rest : str) :
  escapes a -> stripAnsiCodes (a ++ rest) = stripAnsiCodes rest.
Proof.
  unfold stripAnsiCodes. induction 1 as [|ps l a Hps Hl _ IH]; [done|].
  replace ((27 :: 91 :: ps ++ l :: a) ++ rest)
    with (27 :: (91 :: ps ++ [l]) ++ (a ++ rest))
    by (cbn [app]; by rewrite <- !app_assoc).
  rewrite (replaceAll_hit _ _ _ _ _ None); [exact IH|].
  cbn [app]. rewrite <- app_assoc. cbn [app]. by apply exec_ansi.
Qed.




(** *** The two patterns of the error fields *)

















(** *** Messages of several lines *)






































(** *** Escape sequences and lines *)






(** *** The two lines of values *)





























End RegexFacts.

(** The colours Playwright prints around an expected and a received
    value *)
Definition green : str := ESC ++ lit "[32m".
Definition red : str := ESC ++ lit "[31m".
Definition default_colour : str := ESC ++ lit "[39m".





(** * Further properties of the code *)

(** ** The tag parser: local, realm and tags without structure *)

Section TagExtras.
Import Tags.

Lemma exec_local (v : str) :
  exec local_re (lit "@local:" ++ v) = Some (Some (lit "local"), v)
  /\ exec local_re (lit "@locale:" ++ v) = Some (Some (lit "locale"), v).
Proof.
  unfold exec, local_re. split.
  - change (lit "@local:" ++ v) with (64 :: lit "local" ++ 58 :: v).
    cbn [rmatch]. replace (is_char "@" 64) with true by reflexivity.
    rewrite rmatch_word by (repeat constructor).
    replace (is_char ":" 58) with true by reflexivity.
    by rewrite length_app, Nat.add_sub, take_app_length.
  - change (lit "@locale:" ++ v) with (64 :: lit "local" ++ 101 :: 58 :: v).
    cbn [rmatch]. replace (is_char "@" 64) with true by reflexivity.
    rewrite rmatch_word by (repeat constructor).
    replace (is_char ":" 101) with false by reflexivity.
    change (lit "local" ++ 101 :: 58 :: v) with (lit "locale" ++ 58 :: v).
    rewrite rmatch_word by (repeat constructor).
    replace (is_char ":" 58) with true by reflexivity.
    by rewrite length_app, Nat.add_sub, take_app_length.
Qed.

(** A tag is a local tag when it starts with one of the two prefixes. *)
Definition is_local_tag (tag : str) : bool :=
  startsWith tag (lit "@local:") || startsWith tag (lit "@locale:").

Definition is_realm_tag (tag : str) : bool := startsWith tag (lit "@realm:").

Lemma step_local (d : data) (v : str) :
  step d (lit "@local:" ++ v) = Data v (realm d) (customTags d)
  /\ step d (lit "@locale:" ++ v) = Data v (realm d) (customTags d).
Proof.
  unfold step, replaceAtStart. destruct (exec_local v) as [-> ->].
  rewrite !startsWith_app. by rewrite orb_true_r.
Qed.

Lemma step_local_keeps (d : data) (tag : str) :
  is_local_tag tag = false -> local (step d tag) = local d.
Proof.
  unfold is_local_tag, step. intros ->.
  by repeat match goal with |- context [if ?b then _ else _] => destruct b end.
Qed.

Lemma step_realm (d : data) (v : str) :
  step d (lit "@realm:" ++ v) = Data (local d) v (customTags d).
Proof.
  unfold step.
  replace (startsWith (lit "@realm:" ++ v) (lit "@local:")) with false
    by reflexivity.
  replace (startsWith (lit "@realm:" ++ v) (lit "@locale:")) with false
    by reflexivity.
  by rewrite startsWith_app, replace_prefix.
Qed.

Lemma step_realm_keeps (d : data) (tag : str) :
  is_realm_tag tag = false -> realm (step d tag) = realm d.
Proof.
  unfold is_realm_tag, step. intros ->.
  by repeat match goal with |- context [if ?b then _ else _] => destruct b end.
Qed.

Lemma fold_local_keeps (tags : list str) (d : data) :
  Forall (fun tag => is_local_tag tag = false) tags ->
  local (fold_left step tags d) = local d.
Proof.
  intros H. revert d. induction H as [|tag tags Ht _ IH]; intros d; [done|].
  cbn [fold_left]. by rewrite IH, step_local_keeps.
Qed.

Lemma fold_realm_keeps (tags : list str) (d : data) :
  Forall (fun tag => is_realm_tag tag = false) tags ->
  realm (fold_left step tags d) = realm d.
Proof.
  intros H. revert d. induction H as [|tag tags Ht _ IH]; intros d; [done|].
  cbn [fold_left]. by rewrite IH, step_realm_keeps.
Qed.

(** X1.  The local of a test is what follows the prefix of its last
    [@local:] or [@locale:] tag, colons included. *)
Theorem local_is_last_local_tag (pre post : list str) (v testTitle : str) :
  Forall (fun tag => is_local_tag tag = false) post ->
  local (extractDataFromTags (pre ++ (lit "@local:" ++ v) :: post) testTitle).1
  = v
  /\ local (extractDataFromTags (pre ++ (lit "@locale:" ++ v) :: post)
                                testTitle).1
     = v.
Proof.
  intros Hpost. cbn [extractDataFromTags fst].
  rewrite !fold_left_app. cbn [fold_left].
  rewrite !fold_local_keeps by done.
  by destruct (step_local (fold_left step pre initial) v) as [-> ->].
Qed.

Lemma local_is_last_local_tag_witness :
  local (extractDataFromTags
           ([lit "@locale:de"] ++ (lit "@local:" ++ lit "fr:CA")
              :: [lit "@env:prod"]) []).1
  = lit "fr:CA".
Proof.
  apply (local_is_last_local_tag [lit "@locale:de"] [lit "@env:prod"]
           (lit "fr:CA") []).
  repeat constructor.
Defined.

(** X2.  The realm of a test is what follows the prefix of its last
    [@realm:] tag, colons included. *)
Theorem realm_is_last_realm_tag (pre post : list str) (v testTitle : str) :
  Forall (fun tag => is_realm_tag tag = false) post ->
  realm (extractDataFromTags (pre ++ (lit "@realm:" ++ v) :: post) testTitle).1
  = v.
Proof.
  intros Hpost. cbn [extractDataFromTags fst].
  rewrite fold_left_app. cbn [fold_left].
  rewrite fold_realm_keeps by done. by rewrite step_realm.
Qed.

Lemma realm_is_last_realm_tag_witness :
  realm (extractDataFromTags
           ([lit "@realm:us"] ++ (lit "@realm:" ++ lit "eu") :: [lit "@smoke"])
           []).1
  = lit "eu".
Proof.
  apply (realm_is_last_realm_tag [lit "@realm:us"] [lit "@smoke"] (lit "eu") []).
  repeat constructor.
Defined.

(** A tag has structure when it starts with an at sign and holds a
    colon. *)
Definition structured (tag : str) : bool :=
  startsWith tag (lit "@") && includes tag (lit ":").

Lemma prefix_structured (tag : str) (w : string) :
  startsWith tag (64 :: lit w ++ [58]) = true -> structured tag = true.
Proof.
  intros H. apply startsWith_true in H as [t ->]. unfold structured.
  apply andb_true_iff. split; [reflexivity|].
  apply includes_colon. apply elem_of_app. left. right.
  apply elem_of_app. right. by left.
Qed.

Lemma step_unstructured (d : data) (tag : str) :
  structured tag = false -> step d tag = d.
Proof.
  intros H. unfold step.
  destruct (startsWith tag (lit "@local:")) eqn:E1;
    [by rewrite (prefix_structured tag "local" E1) in H|].
  destruct (startsWith tag (lit "@locale:")) eqn:E2;
    [by rewrite (prefix_structured tag "locale" E2) in H|].
  destruct (startsWith tag (lit "@realm:")) eqn:E3;
    [by rewrite (prefix_structured tag "realm" E3) in H|].
  destruct (startsWith tag (lit "@payment_method:")) eqn:E4;
    [by rewrite (prefix_structured tag "payment_method" E4) in H|].
  cbn [orb]. unfold structured in H. by rewrite H.
Qed.

(** X3.  Tags that do not start with an at sign, or hold no colon, have no
    effect on the parsed data nor on the warning: the parser gives the same
    result as on the list without them. *)
Theorem unstructured_tags_are_ignored (tags : list str) (testTitle : str) :
  extractDataFromTags tags testTitle
  = extractDataFromTags (filter (fun tag => structured tag = true) tags)
                        testTitle.
Proof.
  unfold extractDataFromTags.
  assert (forall d, fold_left step tags d
            = fold_left step (filter (fun tag => structured tag = true) tags) d)
    as ->; [|done].
  induction tags as [|tag tags IH]; intros d; [done|].
  destruct (structured tag) eqn:E.
  - rewrite filter_cons_True by done. cbn [fold_left]. apply IH.
  - rewrite filter_cons_False by congruence. cbn [fold_left].
    rewrite step_unstructured by done. apply IH.
Qed.

(** X4.  When no tag is a local tag, or none is a realm tag, the parser
    prints its warning exactly once, and the field without a tag holds the
    sentinel. *)
Theorem missing_tag_gives_sentinel_and_warning
    (tags : list str) (testTitle : str) :
  Forall (fun tag => is_local_tag tag = false) tags
  \/ Forall (fun tag => is_realm_tag tag = false) tags ->
  (extractDataFromTags tags testTitle).2
  = [MissingData testTitle (extractDataFromTags tags testTitle).1]
  /\ (Forall (fun tag => is_local_tag tag = false) tags ->
      local (extractDataFromTags tags testTitle).1 = lit "N/A")
  /\ (Forall (fun tag => is_realm_tag tag = false) tags ->
      realm (extractDataFromTags tags testTitle).1 = lit "N/A").
Proof.
  intros H. cbn [extractDataFromTags fst snd].
  assert (Forall (fun tag => is_local_tag tag = false) tags ->
          local (fold_left step tags initial) = lit "N/A") as Hl
    by (intros Hn; by rewrite fold_local_keeps).
  assert (Forall (fun tag => is_realm_tag tag = false) tags ->
          realm (fold_left step tags initial) = lit "N/A") as Hr
    by (intros Hn; by rewrite fold_realm_keeps).
  split; [|done].
  destruct H as [H|H].
  - by rewrite (Hl H), bool_decide_eq_true_2.
  - rewrite (Hr H), (bool_decide_eq_true_2 (lit "N/A" = lit "N/A")) by done.
    by rewrite orb_true_r.
Qed.

Lemma missing_tag_gives_sentinel_and_warning_witness :
  (extractDataFromTags [lit "@realm:eu"; lit "@smoke"] (lit "pays")).2
  = [MissingData (lit "pays")
       (extractDataFromTags [lit "@realm:eu"; lit "@smoke"] (lit "pays")).1].
Proof.
  apply (missing_tag_gives_sentinel_and_warning
           [lit "@realm:eu"; lit "@smoke"] (lit "pays")).
  left. repeat constructor.
Defined.

Lemma split_parts (s : str) : Forall no_colon (split 58 s).
Proof.
  unfold no_colon. induction s as [|c s IH]; cbn [split].
  - constructor; [apply not_elem_of_nil|constructor].
  - destruct (N.eqb_spec c 58) as [->|Hc].
    + constructor; [apply not_elem_of_nil|exact IH].
    + destruct (split 58 s) as [|h t].
      { constructor; [|constructor]. apply not_elem_of_cons.
        split; [congruence|apply not_elem_of_nil]. }
      apply Forall_cons in IH as [Hh Ht]. constructor; [|exact Ht].
      apply not_elem_of_cons. split; [congruence|exact Hh].
Qed.

(** The shape of the custom tags: a non-empty list under
    [payment_method]; elsewhere a string without colon, under a key without
    colon that is none of the keys with a rule of their own nor
    [__proto__]. *)
Definition well_shaped (o : gmap str tag_value) : Prop :=
  forall key val, o !! key = Some val ->
    (key = lit "payment_method" /\ exists vs, val = Multi vs /\ vs <> [])
    \/ (exists v, val = Scalar v /\ no_colon key /\ no_colon v
                   /\ ~ reserved key /\ key <> lit "__proto__").

Lemma step_well_shaped (d : data) (tag : str) :
  well_shaped (customTags d) -> well_shaped (customTags (step d tag)).
Proof.
  intros Hd. unfold step.
  destruct (startsWith tag (lit "@local:")) eqn:E1; [done|].
  destruct (startsWith tag (lit "@locale:")) eqn:E2; [done|].
  destruct (startsWith tag (lit "@realm:")) eqn:E3; [done|].
  cbn [orb].
  destruct (startsWith tag (lit "@payment_method:")) eqn:E4.
  { cbn [customTags]. unfold push_payment_method. intros key val.
    destruct (customTags d !! lit "payment_method") as [[[|c s0]|vs]|] eqn:E;
      try apply Hd.
    all: destruct (decide (key = lit "payment_method")) as [->|Hne];
      [rewrite lookup_insert_eq; intros [= <-]; left; split; [done|];
       eexists; split; [done|];
       first [done | by intros [_ ?]%app_eq_nil]
      |rewrite lookup_insert_ne by congruence; apply Hd]. }
  destruct (startsWith tag (lit "@") && includes tag (lit ":")) eqn:E5; [|done].
  cbn [customTags]. unfold set_generic, slice.
  apply andb_true_iff in E5 as [Hat _].
  apply startsWith_true in Hat as [t ->].
  change (lit "@" ++ t) with (64 :: t) in *. cbn [drop]. rewrite drop_0.
  pose proof (split_parts t) as Hparts.
  destruct (split 58 t) as [|k [|v r]] eqn:E; try done.
  apply Forall_cons in Hparts as [Hk Hparts].
  apply Forall_cons in Hparts as [Hv _].
  apply split_inv in E as [_ [v' ->]].
  unfold set_prop. case_decide as Hproto; [done|].
  intros key val. destruct (decide (key = k)) as [->|Hne].
  - rewrite lookup_insert_eq. intros [= <-]. right.
    exists v. repeat split; try done.
    assert (forall w : string, no_colon (lit w) -> k = lit w ->
              startsWith (64 :: k ++ 58 :: v') (64 :: lit w ++ [58]) = true)
      as Hstart.
    { intros w Hw ->.
      replace (64 :: lit w ++ 58 :: v') with ((64 :: lit w ++ [58]) ++ v')
        by (cbn [app]; by rewrite <- app_assoc).
      apply startsWith_app. }
    intros [Hr|[Hr|[Hr|Hr]]].
    + pose proof (Hstart "local"%string no_colon_lit_local Hr) as Hs.
      change (startsWith (64 :: k ++ 58 :: v') (lit "@local:") = true) in Hs.
      congruence.
    + pose proof (Hstart "locale"%string no_colon_lit_locale Hr) as Hs.
      change (startsWith (64 :: k ++ 58 :: v') (lit "@locale:") = true) in Hs.
      congruence.
    + pose proof (Hstart "realm"%string no_colon_lit_realm Hr) as Hs.
      change (startsWith (64 :: k ++ 58 :: v') (lit "@realm:") = true) in Hs.
      congruence.
    + pose proof (Hstart "payment_method"%string no_colon_lit_payment Hr) as Hs.
      change (startsWith (64 :: k ++ 58 :: v') (lit "@payment_method:") = true)
        in Hs.
      congruence.
  - rewrite lookup_insert_ne by congruence. apply Hd.
Qed.

(** X5.  Whatever the tags, the custom tags of a test have the shape
    above: the reserved keys local, locale and realm never appear, a
    stored string holds no colon, and the list of payment methods is never
    empty when present. *)
Theorem custom_tags_are_well_shaped (tags : list str) (testTitle : str) :
  well_shaped (customTags (extractDataFromTags tags testTitle).1).
Proof.
  cbn [extractDataFromTags fst].
  assert (forall d, well_shaped (customTags d) ->
            well_shaped (customTags (fold_left step tags d))) as H.
  { induction tags as [|tag tags IH]; intros d Hd; [done|].
    cbn [fold_left]. by apply IH, step_well_shaped. }
  apply H. intros key val. cbn. by rewrite lookup_empty.
Qed.
End TagExtras.

(** ** Escape stripping and the extracted values *)

Section StripExtras.

(** The code units of a scan that are outside every match *)
Definition unmatched (ts : list token) : str :=
  concat (map (fun t => match t with Hit _ _ => [] | Lit c => [c] end) ts).

Lemma unmatched_sublist (r : regex) (skip : nat) (s : str) :
  unmatched (scan r skip s) `sublist_of` s.
Proof.
  revert skip. induction s as [|c s IH]; intros skip.
  - cbn [scan]. destruct skip; [|done].
    by destruct (exec r []) as [[cap rest]|].
  - cbn [scan]. destruct skip as [|n]; [|by apply sublist_cons].
    destruct (exec r (c :: s)) as [[cap rest]|].
    + destruct (length (c :: s) - length rest)%nat.
      * cbn. apply sublist_skip, IH.
      * cbn. apply sublist_cons, IH.
    + cbn. apply sublist_skip, IH.
Qed.

(** X6.  Stripping only removes code units: the result is a subsequence of
    the input, hence never longer. *)
Theorem strip_only_removes (s : str) :
  stripAnsiCodes s `sublist_of` s
  /\ (length (stripAnsiCodes s) <= length s)%nat.
Proof.
  assert (stripAnsiCodes s `sublist_of` s) as H
    by apply (unmatched_sublist ansi_re 0 s).
  split; [exact H|by apply sublist_length].
Qed.

(** A message cut into pieces: text without ESC, and runs of escape
    sequences. *)
Inductive piece : Type :=
| Text (t : str)
| Codes (a : str).

Definition piece_ok (p : piece) : Prop :=
  match p with
  | Text t => Forall (fun c => c <> 27) t
  | Codes a => escapes a
  end.

Definition whole (ps : list piece) : str :=
  concat (map (fun p => match p with Text t => t | Codes a => a end) ps).

Definition visible (ps : list piece) : str :=
  concat (map (fun p => match p with Text t => t | Codes a => [] end) ps).

(** X7.  In a message made of text without ESC and of well-formed escape
    sequences, stripping removes exactly the escape sequences. *)
Theorem strip_removes_escape_sequences (ps : list piece) :
  Forall piece_ok ps -> stripAnsiCodes (whole ps) = visible ps.
Proof.
  unfold whole, visible. induction 1 as [|p ps Hp _ IH]; [apply strip_nil|].
  cbn [map concat]. destruct p as [t|a]; cbn in Hp.
  - by rewrite strip_plain, IH.
  - by rewrite strip_escapes, IH.
Qed.

Lemma strip_removes_escape_sequences_witness :
  stripAnsiCodes (whole [Text (lit "Expected: "); Codes green; Text (lit "5");
                         Codes (default_colour ++ red)])
  = lit "Expected: 5".
Proof.
  apply (strip_removes_escape_sequences
           [Text (lit "Expected: "); Codes green; Text (lit "5");
            Codes (default_colour ++ red)]).
  assert (forall t : str, forallb (fun c => negb (c =? 27)) t = true ->
            Forall (fun c => c <> 27) t) as Htext.
  { intros t Ht. apply Forall_forall. intros c Hc ->.
    rewrite forallb_forall in Ht. apply list_elem_of_In in Hc.
    by apply Ht in Hc. }
  apply Forall_cons. split; [by apply Htext|].
  apply Forall_cons. split;
    [apply (escapes_cons [51; 50] 109 []); repeat constructor|].
  apply Forall_cons. split; [by apply Htext|].
  apply Forall_cons. split; [|constructor].
  apply (escapes_cons [51; 57] 109 (27 :: 91 :: [51; 49] ++ 109 :: []));
    [repeat constructor|reflexivity|].
  apply (escapes_cons [51; 49] 109 []); repeat constructor.
Defined.

(** *** What a match captures *)

(** A successful match ran its continuation somewhere. *)
Lemma rmatch_inv (r : regex) (s : str) (cap : option str)
    (k : str -> option str -> option matched) (m : matched) :
  rmatch r s cap k = Some m -> exists s' cap', k s' cap' = Some m.
Proof.
  revert s cap k. induction r as [|p|r1 IH1 r2 IH2|r1 IH1 r2 IH2|r1 IH1|p|p|r1 IH1];
    intros s cap k; cbn [rmatch]; intros H.
  - by eexists _, _.
  - destruct s as [|c s]; [done|]. destruct (p c); [|done]. by eexists _, _.
  - apply IH1 in H as (s1 & c1 & H). by apply IH2 in H.
  - destruct (rmatch r1 s cap k) as [m'|] eqn:E.
    + injection H as ->. by apply IH1 in E.
    + by apply IH2 in H.
  - destruct (rmatch r1 s cap k) as [m'|] eqn:E.
    + injection H as ->. by apply IH1 in E.
    + by eexists _, _.
  - apply star_inv in H as (xs & rest & _ & _ & H). by eexists _, _.
  - destruct s as [|c s]; [done|]. destruct (p c); [|done].
    apply star_inv in H as (xs & rest & _ & _ & H). by eexists _, _.
  - apply IH1 in H as (s1 & c1 & H). by eexists _, _.
Qed.

(** A pattern whose every match captures a run of the class [p] *)
Definition captures_run (r : regex) (p : char -> bool) : Prop :=
  forall s cap m,
    rmatch r s cap (fun s' cap' => Some (cap', s')) = Some m ->
    exists v, m.1 = Some v /\ Forall (fun c => p c = true) v.

Lemma group_captures_run (p : char -> bool) : captures_run (Group (Plus p)) p.
Proof.
  intros s cap m. cbn [rmatch]. destruct s as [|c s]; [done|].
  destruct (p c) eqn:Hc; [|done]. intros H.
  apply star_inv in H as (xs & rest & -> & Hxs & H). injection H as <-.
  exists (c :: xs). split; [|by constructor]. cbn [fst]. f_equal.
  replace (S (length (xs ++ rest)) - length rest)%nat with (S (length xs))
    by (rewrite length_app; lia).
  apply (take_app_length (c :: xs)).
Qed.

Lemma seq_captures_run (r1 r2 : regex) (p : char -> bool) :
  captures_run r2 p -> captures_run (Seq r1 r2) p.
Proof.
  intros H2 s cap m. cbn [rmatch]. intros H.
  apply rmatch_inv in H as (s1 & c1 & H). by apply H2 in H.
Qed.

Lemma expected_captures_run : captures_run expected_re not_newline.
Proof. repeat apply seq_captures_run. apply group_captures_run. Qed.

Lemma actual_captures_run : captures_run actual_re not_newline.
Proof. repeat apply seq_captures_run. apply group_captures_run. Qed.

(** Every match of a scan is a match of the pattern somewhere. *)
Lemma matchAll_from_exec (r : regex) (s : str) (cap : option str) :
  cap ∈ matchAll r s -> exists t rest, exec r t = Some (cap, rest).
Proof.
  unfold matchAll. generalize 0%nat. induction s as [|c s IH]; intros skip.
  - cbn [scan]. destruct skip; [|by intros ?%elem_of_nil].
    destruct (exec r []) as [[cap' rest]|] eqn:E; [|by intros ?%elem_of_nil].
    cbn. intros ->%list_elem_of_singleton. by eexists _, _.
  - cbn [scan]. destruct skip as [|n]; [|apply IH].
    destruct (exec r (c :: s)) as [[cap' rest]|] eqn:E; [|apply IH].
    destruct (length (c :: s) - length rest)%nat; cbn;
      (intros [->|H]%elem_of_cons; [by eexists _, _|by apply IH in H]).
Qed.

Lemma trim_subseteq (s : str) : trim s ⊆ s.
Proof.
  assert (forall t : str, trimStart t ⊆ t) as Hs.
  { induction t as [|c t IH]; [done|]. cbn [trimStart].
    destruct (is_space c); [|done]. intros x Hx. right. by apply IH. }
  unfold trim, trimEnd. intros c Hc.
  apply list_elem_of_In in Hc. apply <- in_rev in Hc.
  apply list_elem_of_In, Hs, list_elem_of_In in Hc. apply <- in_rev in Hc.
  apply list_elem_of_In in Hc. by apply Hs.
Qed.

Lemma cleaned_values (r : regex) (raw : str) :
  captures_run r not_newline ->
  Forall (fun v => 10 ∉ v)
    (map (fun m => stripAnsiCodes (trim (group1 m))) (matchAll r raw)).
Proof.
  intros Hr. apply Forall_map, Forall_forall. intros cap Hcap.
  apply matchAll_from_exec in Hcap as (t & rest & Hexec).
  apply Hr in Hexec as (v & Hv & Hrun). cbn [fst] in Hv. subst cap.
  cbn. intros Hin.
  apply (sublist_subseteq _ _ (proj1 (strip_only_removes _))) in Hin.
  apply trim_subseteq in Hin.
  rewrite Forall_forall in Hrun. apply Hrun in Hin. discriminate Hin.
Qed.

(** X8.  Every expected and every actual value extracted from an error is
    a piece of one line: it holds no line feed. *)
Theorem extracted_values_are_single_line (error : Playwright.TestError) :
  Forall (fun v => 10 ∉ v) (errorFields error).1.2
  /\ Forall (fun v => 10 ∉ v) (errorFields error).2.
Proof.
  unfold errorFields. cbn [fst snd]. split.
  - apply cleaned_values, expected_captures_run.
  - apply cleaned_values, actual_captures_run.
Qed.
End StripExtras.

(** ** Grouping by suite *)

Section GroupingExtras.
Import Playwright.
Variable basename : str -> str.
Variable show : N -> str.

Lemma Map_get_set {V : Type} (m : list (str * V)) (k k' : str) (v : V) :
  Map_get (Map_set m k v) k' = if decide (k = k') then Some v else Map_get m k'.
Proof.
  case_decide as H.
  - subst. apply Map_get_set_eq.
  - by apply Map_get_set_ne.
Qed.

Lemma Map_keys_set {V : Type} (m : list (str * V)) (k : str) (v : V) :
  map fst (Map_set m k v)
  = if bool_decide (k ∈ map fst m) then map fst m else map fst m ++ [k].
Proof.
  induction m as [|[k' v'] m IH]; [done|]. cbn [Map_set map fst].
  destruct (decide (k' = k)) as [->|Hne]; cbn [map fst].
  - rewrite bool_decide_eq_true_2; [done|by left].
  - rewrite IH. case_bool_decide as H1.
    + rewrite bool_decide_eq_true_2; [done|by right].
    + rewrite bool_decide_eq_false_2; [done|].
      intros [?|?]%elem_of_cons; [congruence|done].
Qed.

(** The fold of [ingest], from any state of the map *)
Definition full_fold (events : list (TestCase * TestResult))
    (acc : list (str * list FullReport.entry) * list Tags.warning)
  : list (str * list FullReport.entry) * list Tags.warning :=
  fold_left
    (fun acc ev =>
       let '(tests', warns) :=
         FullReport.onTestEnd basename show ev.1 ev.2 acc.1 in
       (tests', acc.2 ++ warns))
    events acc.

Lemma full_fold_cons (ev : TestCase * TestResult)
    (events : list (TestCase * TestResult))
    (acc : list (str * list FullReport.entry) * list Tags.warning) :
  full_fold (ev :: events) acc
  = full_fold events
      (Map_set acc.1 (full_group ev.1)
         (default [] (Map_get acc.1 (full_group ev.1))
          ++ [full_record basename show ev.1 ev.2]),
       acc.2 ++ (Tags.extractDataFromTags (FullReport.extractTags ev.1)
                                          (title ev.1)).2).
Proof. unfold full_fold. cbn [fold_left]. by rewrite full_onTestEnd. Qed.

(** The events of one suite *)
Definition of_suite (name : str) (events : list (TestCase * TestResult))
  : list (TestCase * TestResult) :=
  filter (fun ev => full_group ev.1 = name) events.

Lemma full_fold_group (events : list (TestCase * TestResult)) (name : str)
    (acc : list (str * list FullReport.entry) * list Tags.warning) :
  Map_get (full_fold events acc).1 name
  = match of_suite name events with
    | [] => Map_get acc.1 name
    | ev :: evs =>
        Some (default [] (Map_get acc.1 name)
              ++ map (fun ev => full_record basename show ev.1 ev.2) (ev :: evs))
    end.
Proof.
  revert acc. induction events as [|ev events IH]; intros acc; [done|].
  rewrite full_fold_cons, IH. cbn [fst]. rewrite Map_get_set.
  unfold of_suite. destruct (decide (full_group ev.1 = name)) as [Hg|Hg].
  - rewrite filter_cons_True by done. fold (of_suite name events).
    cbn [default from_option id]. rewrite Hg.
    destruct (of_suite name events); [done|].
    by rewrite <- app_assoc.
  - by rewrite filter_cons_False by done.
Qed.

(** X9.  After ingestion the group of a suite holds the records of the
    events of that suite, one per event and in the order of the events; a
    suite without event has no group. *)
Theorem group_holds_the_events_of_its_suite
    (events : list (TestCase * TestResult)) (name : str) :
  Map_get (FullReport.ingest basename show events).1 name
  = match of_suite name events with
    | [] => None
    | ev :: evs =>
        Some (map (fun ev => full_record basename show ev.1 ev.2) (ev :: evs))
    end.
Proof.
  change (FullReport.ingest basename show events) with (full_fold events ([], [])).
  rewrite full_fold_group. by destruct (of_suite name events).
Qed.

(** The names of a list without their later repetitions *)
Fixpoint first_seen (names : list str) : list str :=
  match names with
  | [] => []
  | n :: ns => n :: filter (fun x => x <> n) (first_seen ns)
  end.

Lemma full_fold_keys (events : list (TestCase * TestResult))
    (acc : list (str * list FullReport.entry) * list Tags.warning) :
  map fst (full_fold events acc).1
  = map fst acc.1
    ++ filter (fun n => n ∉ map fst acc.1)
         (first_seen (map (fun ev => full_group ev.1) events)).
Proof.
  revert acc. induction events as [|ev events IH]; intros acc.
  - cbn. by rewrite app_nil_r.
  - rewrite full_fold_cons, IH. cbn [fst map first_seen].
    rewrite Map_keys_set. set (g := full_group ev.1).
    set (fs := first_seen (map (fun ev => full_group ev.1) events)).
    case_bool_decide as Hg.
    + rewrite filter_cons_False by (intros H; by apply H).
      f_equal. rewrite list_filter_filter. apply list_filter_iff.
      intros n. split; [|tauto]. intros Hn. split; [done|]. by intros ->.
    + rewrite filter_cons_True by done. rewrite <- app_assoc. cbn [app].
      f_equal. f_equal. rewrite list_filter_filter. apply list_filter_iff.
      intros n. rewrite elem_of_app, list_elem_of_singleton. tauto.
Qed.

(** X10.  The groups come in the order in which their suites were first
    seen, each suite once. *)
Theorem groups_in_first_seen_order (events : list (TestCase * TestResult)) :
  map fst (FullReport.ingest basename show events).1
  = first_seen (map (fun ev => full_group ev.1) events).
Proof.
  change (FullReport.ingest basename show events) with (full_fold events ([], [])).
  rewrite full_fold_keys. cbn [fst map app].
  induction (first_seen (map (fun ev => full_group ev.1) events)) as [|n ns IH];
    [done|].
  rewrite filter_cons_True by apply not_elem_of_nil. by rewrite IH.
Qed.
End GroupingExtras.

(** ** The failures-only reporter: what it counts and shows *)

Section FailedExtras.
Import Playwright Effects.
Variable basename : str -> str.
Variable show : N -> str.

Lemma totalFailed_length (failedTests : list (str * list FailedReport.entry)) :
  FailedReport.totalFailed failedTests = length (concat (Map_values failedTests)).
Proof.
  unfold FailedReport.totalFailed.
  assert (forall (gs : list (list FailedReport.entry)) (n : nat),
            fold_left (fun acc arr => (acc + length arr)%nat) gs n
            = (n + length (concat gs))%nat) as H.
  { induction gs as [|g gs IH]; intros n; cbn [fold_left concat].
    - cbn. lia.
    - rewrite IH, length_app. lia. }
  by rewrite H.
Qed.

Lemma Map_push_perm {V : Type} (m : list (str * list V)) (k : str)
    (vs : list V) :
  concat (Map_values (Map_push m k vs)) ≡ₚ vs ++ concat (Map_values m).
Proof.
  unfold Map_push. revert m. induction vs as [|v vs IH]; intros m; [done|].
  cbn [fold_left]. rewrite IH, Map_set_push_perm.
  by rewrite <- Permutation_middle.
Qed.

(** The fold of [ingest], from any state of the map *)
Definition failed_fold (events : list (TestCase * TestResult))
    (acc : list (str * list FailedReport.entry) * list Tags.warning)
  : list (str * list FailedReport.entry) * list Tags.warning :=
  fold_left
    (fun acc ev =>
       let '(tests', warns) :=
         FailedReport.onTestEnd basename show ev.1 ev.2 acc.1 in
       (tests', acc.2 ++ warns))
    events acc.

(** The number of records an event adds: one per recorded error of a
    failed test, none otherwise. *)
Definition records_added (ev : TestCase * TestResult) : nat :=
  if bool_decide (status ev.2 = failed) then length (errors ev.2) else 0%nat.

Lemma failed_step (ev : TestCase * TestResult)
    (m : list (str * list FailedReport.entry)) :
  exists vs,
    (FailedReport.onTestEnd basename show ev.1 ev.2 m).1
    = Map_push m (failed_group ev.1) vs
    /\ length vs = records_added ev.
Proof.
  unfold records_added. case_bool_decide as Hs.
  - rewrite failed_onTestEnd by done. eexists. split; [done|].
    by rewrite length_map.
  - rewrite failed_onTestEnd_other by done. by exists [].
Qed.

Lemma failed_fold_total (events : list (TestCase * TestResult))
    (acc : list (str * list FailedReport.entry) * list Tags.warning) :
  FailedReport.totalFailed (failed_fold events acc).1
  = (FailedReport.totalFailed acc.1 + sum_list (map records_added events))%nat.
Proof.
  revert acc. induction events as [|ev events IH]; intros acc.
  - cbn. lia.
  - unfold failed_fold in *. cbn [fold_left map sum_list sum_list_with].
    destruct (failed_step ev acc.1) as (vs & Hvs & Hlen).
    destruct (FailedReport.onTestEnd basename show ev.1 ev.2 acc.1)
      as [tests' warns] eqn:E.
    rewrite IH. cbn [fst] in *. subst tests'.
    rewrite !totalFailed_length, Map_push_perm, length_app, Hlen.
    unfold id. lia.
Qed.

(** X11.  The number announced as the total of failed tests is the number
    of recorded errors of the failed tests: a failed test counts once per
    error, and not at all when it has none. *)
Theorem total_failed_counts_errors (events : list (TestCase * TestResult)) :
  FailedReport.totalFailed (FailedReport.ingest basename show events).1
  = sum_list (map records_added events).
Proof.
  change (FailedReport.ingest basename show events)
    with (failed_fold events ([], [])).
  by rewrite failed_fold_total.
Qed.

Lemma Map_set_not_nil {V : Type} (m : list (str * V)) (k : str) (v : V) :
  Map_set m k v <> [].
Proof. destruct m as [|[k' v'] m]; cbn; [done|]. by case_decide. Qed.

Lemma Map_push_nil {V : Type} (m : list (str * list V)) (k : str)
    (vs : list V) :
  Map_push m k vs = [] <-> m = [] /\ vs = [].
Proof.
  unfold Map_push. revert m. induction vs as [|v vs IH]; intros m.
  - cbn. tauto.
  - cbn [fold_left]. rewrite IH. split; [|by intros [_ ?]].
    intros [H _]. by apply Map_set_not_nil in H.
Qed.

Lemma failed_fold_nil (events : list (TestCase * TestResult))
    (acc : list (str * list FailedReport.entry) * list Tags.warning) :
  (failed_fold events acc).1 = []
  <-> acc.1 = [] /\ Forall (fun ev => records_added ev = 0%nat) events.
Proof.
  revert acc. induction events as [|ev events IH]; intros acc.
  - cbn. split; [by intros ->|tauto].
  - unfold failed_fold in *. cbn [fold_left].
    destruct (failed_step ev acc.1) as (vs & Hvs & Hlen).
    destruct (FailedReport.onTestEnd basename show ev.1 ev.2 acc.1)
      as [tests' warns] eqn:E.
    rewrite IH. cbn [fst] in *. subst tests'.
    rewrite Map_push_nil, Forall_cons, <- Hlen, length_zero_iff_nil. tauto.
Qed.

Variable fullReportHtml : list (str * list FailedReport.entry) -> str.
Variable emailBodyHtml : list (str * list FailedReport.entry) -> str.
Variable textSummary : list (str * list FailedReport.entry) -> str.
Variable teamsPayload : list (str * list FailedReport.entry) -> str.
Variable TypeError : str -> Effects.JsError.

(** X12.  When no failed test of the run carries a recorded error, also
    when some tests did fail, [onEnd] prints that all tests passed and
    does nothing else: no report, no webhook, no mail. *)
Theorem run_without_recorded_error_reports_nothing
    (events : list (TestCase * TestResult)) (w : world) :
  Forall (fun ev => status ev.2 <> failed \/ errors ev.2 = []) events ->
  FailedReport.onEnd fullReportHtml emailBodyHtml textSummary teamsPayload
    TypeError
    (FailedReport.ingest basename show events).1 w (Run [] 0)
  = (inl (), Run [Print AllTestsPassed] 0).
Proof.
  intros H.
  assert ((FailedReport.ingest basename show events).1 = []) as ->; [|done].
  change (FailedReport.ingest basename show events)
    with (failed_fold events ([], [])).
  apply failed_fold_nil. split; [done|].
  eapply Forall_impl; [exact H|]. intros ev [Hs|He]; unfold records_added.
  - by rewrite bool_decide_eq_false_2.
  - rewrite He. by case_bool_decide.
Qed.
End FailedExtras.

Lemma run_without_recorded_error_reports_nothing_witness :
  FailedReport.onEnd no_render no_render no_render no_render type_error
    (FailedReport.ingest id (fun _ => [])
       [(untagged_test, failed_without_error)]).1 three_failures
    (Effects.Run [] 0)
  = (inl (), Effects.Run [Effects.Print Effects.AllTestsPassed] 0).
Proof.
  apply (run_without_recorded_error_reports_nothing id (fun _ => [])
           no_render no_render no_render no_render type_error
           [(untagged_test, failed_without_error)] three_failures).
  constructor; [right; reflexivity|constructor].
Defined.

Section ShownExtras.
Import Playwright.
Variable basename : str -> str.
Variable show : N -> str.

Lemma customTagKeys_fold (tests : list FailedReport.entry) (acc : gset str)
    (key : str) :
  key ∈ fold_left (fun keys t => keys ∪ dom (FailedReport.customTags t)) tests acc
  <-> key ∈ acc
      \/ exists t, t ∈ tests /\ is_Some (FailedReport.customTags t !! key).
Proof.
  revert acc. induction tests as [|t tests IH]; intros acc; cbn [fold_left].
  - split; [by left|]. intros [H|(t & H & _)]; [done|by apply elem_of_nil in H].
  - rewrite IH, elem_of_union, elem_of_dom. split.
    + intros [[H|H]|(t' & Ht' & H)].
      * by left.
      * right. exists t. split; [by left|done].
      * right. exists t'. split; [by right|done].
    + intros [H|(t' & Ht' & H)]; [by left; left|].
      apply elem_of_cons in Ht' as [->|Ht']; [by left; right|].
      right. by exists t'.
Qed.

(** X13.  The columns of a group are the keys used by at least one of its
    entries, and more entries never remove a column. *)
Theorem custom_tag_keys_are_the_union (tests more : list FailedReport.entry)
    (key : str) :
  (key ∈ FailedReport.customTagKeys tests
   <-> exists t, t ∈ tests /\ is_Some (FailedReport.customTags t !! key))
  /\ FailedReport.customTagKeys tests ⊆ FailedReport.customTagKeys (tests ++ more).
Proof.
  unfold FailedReport.customTagKeys. split.
  - rewrite customTagKeys_fold. split; [|by right].
    intros [H|H]; [by apply not_elem_of_empty in H|done].
  - intros k. rewrite !customTagKeys_fold. intros [H|(t & Ht & H)]; [by left|].
    right. exists t. split; [|done]. apply elem_of_app. by left.
Qed.

Lemma payment_methods_of_placeholder (test : TestCase) :
  Tags.extractPaymentMethodsFromTags (FailedReport.extractTags test)
  = Tags.extractPaymentMethodsFromTags (Playwright.tags test).
Proof. unfold FailedReport.extractTags. by destruct (Playwright.tags test). Qed.

(** X14.  The payment methods shown for a stored entry are the values of
    the [@payment_method:] tags of its test, in the order of the tags. *)
Theorem shown_payment_methods_are_the_tagged_ones
    (test : TestCase) (result : TestResult) (error : TestError) :
  FailedReport.paymentMethods (failed_entry basename show test result error)
  = Tags.extractPaymentMethodsFromTags (Playwright.tags test).
Proof.
  rewrite <- payment_methods_of_placeholder.
  unfold FailedReport.paymentMethods, failed_entry.
  cbn [FailedReport.customTags Tags.extractDataFromTags fst].
  rewrite fold_payment by apply initial_payment_is_list.
  destruct (Tags.extractPaymentMethodsFromTags (FailedReport.extractTags test));
    [|done].
  cbn. by rewrite lookup_empty.
Qed.
End ShownExtras.

(** ** The statistics of the full-run reporter: the distinct values *)

Lemma Set_add_fold (xs init : list str) :
  let set := fold_left (fun set x => FullReport.Set_add x set) xs init in
  (NoDup init -> NoDup set)
  /\ (forall x, x ∈ set <-> x ∈ init \/ x ∈ xs).
Proof.
  cbn zeta. revert init. induction xs as [|y xs IH]; intros init; cbn [fold_left].
  - split; [done|]. intros x. split; [by left|].
    intros [H|H]; [done|by apply elem_of_nil in H].
  - destruct (IH (FullReport.Set_add y init)) as [Hnd Hin].
    assert (forall x, x ∈ FullReport.Set_add y init <-> x ∈ init \/ x = y) as Hadd.
    { intros x. unfold FullReport.Set_add. case_bool_decide as Hy.
      - split; [by left|]. by intros [H| ->].
      - rewrite elem_of_app, list_elem_of_singleton. tauto. }
    split.
    + intros Hi. apply Hnd. unfold FullReport.Set_add.
      case_bool_decide as Hy; [done|].
      apply NoDup_app. split; [done|]. split; [|apply NoDup_singleton].
      intros x Hx ->%list_elem_of_singleton. done.
    + intros x. rewrite Hin, Hadd, elem_of_cons. tauto.
Qed.

Section DistinctExtras.
Import Playwright.
Variable basename : str -> str.
Variable show : N -> str.

Lemma fold_count_sets (ts : list FullReport.entry) (st : FullReport.stats) :
  let st' := fold_left FullReport.count ts st in
  FullReport.allLocals st'
  = fold_left (fun set x => FullReport.Set_add x set)
              (map FullReport.local ts) (FullReport.allLocals st)
  /\ FullReport.allRealms st'
     = fold_left (fun set x => FullReport.Set_add x set)
                 (map FullReport.realm ts) (FullReport.allRealms st).
Proof.
  cbn zeta. revert st. induction ts as [|t ts IH]; intros st; [done|].
  cbn [fold_left map]. by destruct (IH (FullReport.count st t)) as [-> ->].
Qed.

(** The local and the realm parsed from the tags of a test *)
Definition local_of (test : TestCase) : str :=
  Tags.local (Tags.extractDataFromTags (FullReport.extractTags test)
                                       (title test)).1.
Definition realm_of (test : TestCase) : str :=
  Tags.realm (Tags.extractDataFromTags (FullReport.extractTags test)
                                       (title test)).1.

Lemma full_record_local (test : TestCase) (result : TestResult) :
  FullReport.local (full_record basename show test result) = local_of test
  /\ FullReport.realm (full_record basename show test result) = realm_of test.
Proof.
  unfold full_record. destruct (bool_decide (status result = failed)); [|done].
  by destruct (full_errors_keeps (full_entry basename show test result)
                 (errors result)) as (_ & -> & -> & _).
Qed.

(** X15.  The locales and the realms of the statistics hold no value
    twice, and hold exactly the locals and the realms of the ingested
    tests. *)
Theorem distinct_locals_and_realms (events : list (TestCase * TestResult))
    (x : str) :
  let st := FullReport.statistics (FullReport.ingest basename show events).1 in
  NoDup (FullReport.allLocals st) /\ NoDup (FullReport.allRealms st)
  /\ (x ∈ FullReport.allLocals st
      <-> exists ev, ev ∈ events /\ local_of ev.1 = x)
  /\ (x ∈ FullReport.allRealms st
      <-> exists ev, ev ∈ events /\ realm_of ev.1 = x).
Proof.
  cbn zeta. rewrite statistics_flat.
  destruct (fold_count_sets
              (concat (Map_values (FullReport.ingest basename show events).1))
              (FullReport.Stats 0 0 0 0 [] [] [])) as [-> ->].
  cbn [FullReport.allLocals FullReport.allRealms].
  pose proof (ingest_records basename show events) as Hperm.
  destruct (Set_add_fold
              (map FullReport.local
                 (concat (Map_values (FullReport.ingest basename show events).1)))
              []) as [Hnd1 Hin1].
  destruct (Set_add_fold
              (map FullReport.realm
                 (concat (Map_values (FullReport.ingest basename show events).1)))
              []) as [Hnd2 Hin2].
  split; [apply Hnd1, NoDup_nil_2|]. split; [apply Hnd2, NoDup_nil_2|].
  split.
  - rewrite Hin1, Hperm, map_map. split.
    + intros [H|H]; [by apply elem_of_nil in H|].
      apply list_elem_of_fmap in H as (ev & -> & Hev).
      exists ev. split; [done|].
      symmetry. apply (proj1 (full_record_local ev.1 ev.2)).
    + intros (ev & Hev & <-). right. apply list_elem_of_fmap.
      exists ev. split; [|done].
      symmetry. apply (proj1 (full_record_local ev.1 ev.2)).
  - rewrite Hin2, Hperm, map_map. split.
    + intros [H|H]; [by apply elem_of_nil in H|].
      apply list_elem_of_fmap in H as (ev & -> & Hev).
      exists ev. split; [done|].
      symmetry. apply (proj2 (full_record_local ev.1 ev.2)).
    + intros (ev & Hev & <-). right. apply list_elem_of_fmap.
      exists ev. split; [|done].
      symmetry. apply (proj2 (full_record_local ev.1 ev.2)).
Qed.

(** X16.  The counters of the statistics leave out the tests that timed
    out or were interrupted: the three counters and the number of those
    tests add up to the total.  In the report such a test is drawn with the
    class of a failed one. *)
Theorem other_statuses_are_counted_in_the_total_only
    (events : list (TestCase * TestResult))
    (test : TestCase) (result : TestResult) :
  let st := FullReport.statistics (FullReport.ingest basename show events).1 in
  FullReport.totalPassed st + FullReport.totalFailed st
    + FullReport.totalSkipped st
    + N.of_nat (length (filter (fun ev => status ev.2 = timedOut
                                          \/ status ev.2 = interrupted) events))
  = FullReport.totalTests st
  /\ (FullReport.statusClass (full_record basename show test result)
      = lit "failed"
      <-> status result <> passed /\ status result <> skipped).
Proof.
  cbn zeta. split.
  - destruct (statistics_per_status basename show events) as (-> & -> & -> & ->).
    induction events as [|ev events IH]; [done|].
    destruct (status ev.2) eqn:Hs;
      repeat first
        [ rewrite filter_cons_True by (rewrite Hs; first [done|by left|by right])
        | rewrite filter_cons_False
            by (rewrite Hs; first [done|by intros [?|?]]) ];
      cbn [length]; lia.
  - unfold FullReport.statusClass. rewrite full_record_status.
    destruct (status result); cbn; split; try done; intros [? ?]; done.
Qed.
End DistinctExtras.

(** ** The payment methods of the statistics *)

Section PaymentExtras.
Import Playwright.
Variable basename : str -> str.
Variable show : N -> str.

Lemma str_ltb_asym (x y : str) : str_ltb x y = true -> str_ltb y x = false.
Proof.
  revert y. induction x as [|a x IH]; intros [|b y]; cbn [str_ltb]; try done.
  rewrite orb_true_iff, andb_true_iff, orb_false_iff, andb_false_iff.
  rewrite !N.ltb_lt, !N.eqb_eq, N.ltb_ge, N.eqb_neq.
  intros [H|[-> H]].
  - split; [lia|left; lia].
  - split; [lia|right; by apply IH].
Qed.

#[local] Instance str_le_total : Total str_le.
Proof.
  intros x y. unfold str_le.
  destruct (str_ltb y x) eqn:E; [right; by apply str_ltb_asym|by left].
Qed.

#[local] Instance str_le_trans : Transitive str_le.
Proof.
  unfold str_le. intros x. induction x as [|a x IH]; intros y z Hxy Hyz.
  - by destruct z.
  - destruct z as [|c z]; [|destruct y as [|b y]]; cbn [str_ltb] in *.
    + destruct y; done.
    + done.
    + apply orb_false_iff in Hxy as [H1 H2], Hyz as [H3 H4].
      apply N.ltb_ge in H1, H3. apply orb_false_iff. split.
      * apply N.ltb_ge. lia.
      * destruct (N.eqb_spec c a) as [->|]; [|done]. cbn.
        assert (b = a) as -> by lia.
        rewrite N.eqb_refl in H2, H4. cbn in H2, H4. by apply (IH y).
Qed.

(** X17.  The list of payment methods shown with the statistics is
    sorted by code units, holds no value twice, and holds exactly the
    values collected. *)
Theorem unique_sorted_is_sorted_and_distinct (xs : list str) (x : str) :
  StronglySorted str_le (FullReport.uniqueSorted xs)
  /\ NoDup (FullReport.uniqueSorted xs)
  /\ (x ∈ FullReport.uniqueSorted xs <-> x ∈ xs).
Proof.
  unfold FullReport.uniqueSorted, sort.
  destruct (Set_add_fold xs []) as [Hnd Hin].
  split; [apply StronglySorted_merge_sort; apply _|].
  rewrite merge_sort_Permutation. split; [apply Hnd, NoDup_nil_2|].
  rewrite Hin. split; [|by right].
  intros [H|H]; [by apply elem_of_nil in H|done].
Qed.

(** The payment methods the loop of the statistics takes from a record,
    lines 914-922 *)
Definition collected (t : FullReport.entry) : list str :=
  match FullReport.customTags t !! lit "payment_method" with
  | Some (Tags.Multi vs) => vs
  | Some (Tags.Scalar (c :: v)) => [c :: v]
  | Some (Tags.Scalar []) | None => []
  end.

Lemma fold_count_payments (ts : list FullReport.entry) (st : FullReport.stats) :
  FullReport.allPaymentMethods (fold_left FullReport.count ts st)
  = FullReport.allPaymentMethods st ++ concat (map collected ts).
Proof.
  revert st. induction ts as [|t ts IH]; intros st; cbn [fold_left map concat].
  - by rewrite app_nil_r.
  - rewrite IH. cbn [FullReport.count FullReport.allPaymentMethods].
    unfold collected.
    destruct (FullReport.customTags t !! lit "payment_method") as [[[|c v]|vs]|];
      by rewrite <- ?app_assoc, ?app_nil_r.
Qed.

Lemma full_errors_customTags (t : FullReport.entry) (es : list TestError) :
  FullReport.customTags (full_errors t es) = FullReport.customTags t.
Proof.
  unfold full_errors. revert t.
  induction es as [|e es IH]; intros t; cbn [fold_left]; [done|].
  destruct (errorFields e) as [[raw exp] act]. by rewrite IH.
Qed.

Lemma collected_of_record (test : TestCase) (result : TestResult) :
  collected (full_record basename show test result)
  = Tags.extractPaymentMethodsFromTags (Playwright.tags test).
Proof.
  assert (Tags.extractPaymentMethodsFromTags (FullReport.extractTags test)
          = Tags.extractPaymentMethodsFromTags (Playwright.tags test)) as <-.
  { unfold FullReport.extractTags. by destruct (Playwright.tags test). }
  unfold collected.
  assert (FullReport.customTags (full_record basename show test result)
          = Tags.customTags (Tags.extractDataFromTags
                               (FullReport.extractTags test) (title test)).1)
    as ->.
  { unfold full_record. destruct (bool_decide (status result = failed)); [|done].
    by rewrite full_errors_customTags. }
  cbn [Tags.extractDataFromTags fst].
  rewrite fold_payment by apply initial_payment_is_list.
  destruct (Tags.extractPaymentMethodsFromTags (FullReport.extractTags test));
    [|done].
  cbn. by rewrite lookup_empty.
Qed.

(** X18.  The payment methods collected by the statistics are the values
    of the [@payment_method:] tags of the ingested tests, each as often as
    it is tagged. *)
Theorem collected_payment_methods (events : list (TestCase * TestResult)) :
  FullReport.allPaymentMethods
    (FullReport.statistics (FullReport.ingest basename show events).1)
  ≡ₚ concat (map (fun ev => Tags.extractPaymentMethodsFromTags
                              (Playwright.tags ev.1)) events).
Proof.
  rewrite statistics_flat, fold_count_payments. cbn [FullReport.allPaymentMethods app].
  rewrite (ingest_records basename show events), map_map.
  induction events as [|ev events IH]; [done|].
  cbn [map concat]. by rewrite collected_of_record, IH.
Qed.
End PaymentExtras.

(** ** Delivery: what the end of a run may and may not do *)

Lemma webhook_posts_once (w : Effects.world) (payload : str) :
  (occurrences is_post (webhook_effects w payload) <= 1)%nat.
Proof.
  unfold webhook_effects.
  destruct (Effects.WEB_HOOK_URL w) as [[|c u]|];
    rewrite ?occurrences_cons; cbn; lia.
Qed.

Section DeliveryExtras.
Import Effects.
Variable fullReportHtml : list (str * list FailedReport.entry) -> str.
Variable emailBodyHtml : list (str * list FailedReport.entry) -> str.
Variable textSummary : list (str * list FailedReport.entry) -> str.
Variable teamsPayload : list (str * list FailedReport.entry) -> str.
Variable TypeError : str -> Effects.JsError.

(** X19.  When the columns of lines 129-136 can be computed (the first
    group titled size does not come after a group titled __proto__) and the
    report file can be written, [onEnd] returns normally whatever the
    webhook and the mail server do; it posts at most once and calls
    [sendMail] at most three times. *)
Theorem onEnd_swallows_transport_failures (w : world)
    (failedTests : list (str * list FailedReport.entry)) :
  size_after_proto (map fst failedTests) = false ->
  writeFileSync w report_path = None ->
  let out := FailedReport.onEnd fullReportHtml emailBodyHtml textSummary
               teamsPayload TypeError failedTests w (Run [] 0) in
  out.1 = inl ()
  /\ (occurrences is_post (trace out.2) <= 1)%nat
  /\ (sends out.2 <= 3)%nat.
Proof.
  intros Hk Hw. cbn zeta. destruct failedTests as [|g gs].
  { cbn [FailedReport.onEnd print emit fst snd trace sends app].
    rewrite occurrences_cons. cbn. repeat split; lia. }
  rewrite (onEnd_channels fullReportHtml emailBodyHtml textSummary teamsPayload)
    by done.
  pose proof (webhook_posts_once w (teamsPayload (g :: gs))) as Hp.
  destruct (verify w) as [e|].
  - cbn [fst snd trace sends]. split; [done|]. split; [|lia].
    rewrite !occurrences_app, !occurrences_cons. cbn. lia.
  - set (r := Run _ 0).
    pose proof (sendEmailWithRetry_bounded (textSummary (g :: gs))
                  (emailBodyHtml (g :: gs)) 3 1000 w r) as Hb.
    destruct (sendEmailWithRetry_returns (textSummary (g :: gs))
                (emailBodyHtml (g :: gs)) 3 1000 w r) as (tr & k & E & Htr).
    rewrite E in *. cbn [fst snd trace sends] in *.
    split; [done|]. split; [|exact Hb].
    unfold r. cbn [trace]. rewrite !occurrences_app.
    rewrite (mail_effects_only is_post tr mail_not_post Htr).
    rewrite !occurrences_cons. cbn. lia.
Qed.

(** X20.  When the columns can be computed and the report file cannot be
    written, [onEnd] throws the error of the write and neither posts to the
    webhook nor touches the mail server. *)
Theorem failed_write_rejects_onEnd (w : world)
    (failedTests : list (str * list FailedReport.entry)) (e : JsError) :
  failedTests <> [] ->
  size_after_proto (map fst failedTests) = false ->
  writeFileSync w report_path = Some e ->
  FailedReport.onEnd fullReportHtml emailBodyHtml textSummary teamsPayload
    TypeError failedTests w (Run [] 0)
  = (inr e, Run [WriteFile report_path (fullReportHtml failedTests)] 0).
Proof. apply onEnd_write_fails. Qed.

(** X21.  When the columns can be computed, the report is written and
    the webhook URL is undefined or empty, [onEnd] posts nothing, prints
    the warning, and goes on to the SMTP verification. *)
Theorem unconfigured_webhook_is_skipped (w : world)
    (failedTests : list (str * list FailedReport.entry)) :
  failedTests <> [] ->
  size_after_proto (map fst failedTests) = false ->
  writeFileSync w report_path = None ->
  WEB_HOOK_URL w = None \/ WEB_HOOK_URL w = Some [] ->
  exists tr k,
    FailedReport.onEnd fullReportHtml emailBodyHtml textSummary teamsPayload
      TypeError failedTests w (Run [] 0)
    = (inl (),
       Run ([WriteFile report_path (fullReportHtml failedTests);
             Print ReportGenerated; Print WebhookUrlNotDefined; Verify] ++ tr) k)
    /\ occurrences is_post tr = 0%nat.
Proof.
  intros Hne Hk Hw Hurl.
  rewrite (onEnd_channels fullReportHtml emailBodyHtml textSummary teamsPayload)
    by done.
  assert (webhook_effects w (teamsPayload failedTests)
          = [Print WebhookUrlNotDefined]) as ->
    by (unfold webhook_effects; by destruct Hurl as [-> | ->]).
  destruct (verify w) as [e|].
  - by eexists _, _.
  - set (r := Run _ 0).
    destruct (sendEmailWithRetry_returns (textSummary failedTests)
                (emailBodyHtml failedTests) 3 1000 w r) as (tr & k & -> & Htr).
    exists (Print SmtpVerified :: tr), k. split; [done|].
    change (occurrences is_post tr = 0%nat).
    exact (mail_effects_only is_post tr mail_not_post Htr).
Qed.

(** X26.  When the first group titled size comes after a group titled
    __proto__, the assignment of line 135 throws: the column computation
    does not return, and [onEnd] rejects with the TypeError before any
    effect, whatever the world: no report is written, nothing is posted,
    no mail is sent. *)
Theorem column_clash_rejects_onEnd (w : world)
    (failedTests : list (str * list FailedReport.entry)) :
  size_after_proto (map fst failedTests) = true ->
  FailedReport.customTagKeysByDescribe failedTests = None
  /\ FailedReport.onEnd fullReportHtml emailBodyHtml textSummary teamsPayload
       TypeError failedTests w (Run [] 0)
     = (inr (TypeError (lit "size")), Run [] 0).
Proof.
  intros H. split.
  - by apply customTagKeysByDescribe_throws.
  - by apply onEnd_throws.
Qed.
End DeliveryExtras.

(** The report directory is missing. *)
Definition no_directory : Effects.world :=
  {| Effects.WEB_HOOK_URL := Some (lit "https://hooks.example/teams");
     Effects.writeFileSync := fun _ => Some refused;
     Effects.post := None;
     Effects.verify := None;
     Effects.sendMail := fun _ => None |}.

(** A failed test of the suite [suite] *)
Definition test_of (suite : string) : Playwright.TestCase :=
  {| Playwright.title := lit "pays";
     Playwright.parent := Some (lit suite);
     Playwright.location := None;
     Playwright.tags := [] |}.

(** The groups of a run whose failures lie in a suite titled __proto__
    and then in a suite titled size *)
Definition clashing_groups : list (str * list FailedReport.entry) :=
  (FailedReport.ingest id (fun _ => [])
     [(test_of "__proto__", two_errors); (test_of "size", two_errors)]).1.

Lemma onEnd_swallows_transport_failures_witness :
  size_after_proto (map fst one_group) = false
  /\ (FailedReport.onEnd no_render no_render no_render no_render type_error
        one_group three_failures (Effects.Run [] 0)).1 = inl ().
Proof.
  split; [reflexivity|].
  apply (onEnd_swallows_transport_failures no_render no_render no_render
           no_render type_error three_failures one_group eq_refl eq_refl).
Defined.

Lemma failed_write_rejects_onEnd_witness :
  size_after_proto (map fst one_group) = false
  /\ FailedReport.onEnd no_render no_render no_render no_render type_error
       one_group no_directory (Effects.Run [] 0)
     = (inr refused, Effects.Run [Effects.WriteFile report_path []] 0).
Proof.
  assert (one_group <> []) as Hne by (vm_compute; discriminate).
  split; [reflexivity|].
  exact (failed_write_rejects_onEnd no_render no_render no_render no_render
           type_error no_directory one_group refused Hne eq_refl eq_refl).
Defined.

Lemma unconfigured_webhook_is_skipped_witness :
  size_after_proto (map fst one_group) = false
  /\ exists tr k,
       FailedReport.onEnd no_render no_render no_render no_render type_error
         one_group smtp_down (Effects.Run [] 0)
       = (inl (),
          Effects.Run
            ([Effects.WriteFile report_path [];
              Effects.Print Effects.ReportGenerated;
              Effects.Print Effects.WebhookUrlNotDefined; Effects.Verify]
             ++ tr) k)
       /\ occurrences is_post tr = 0%nat.
Proof.
  assert (one_group <> []) as Hne by (vm_compute; discriminate).
  split; [reflexivity|].
  exact (unconfigured_webhook_is_skipped no_render no_render no_render no_render
           type_error smtp_down one_group Hne eq_refl eq_refl
           (or_introl eq_refl)).
Defined.

Lemma column_clash_rejects_onEnd_witness :
  map fst clashing_groups = [lit "__proto__"; lit "size"]
  /\ size_after_proto (map fst clashing_groups) = true
  /\ FailedReport.onEnd no_render no_render no_render no_render type_error
       clashing_groups three_failures (Effects.Run [] 0)
     = (inr (type_error (lit "size")), Effects.Run [] 0).
Proof.
  split; [reflexivity|]. split; [reflexivity|].
  exact (proj2 (column_clash_rejects_onEnd no_render no_render no_render
                  no_render type_error three_failures clashing_groups
                  eq_refl)).
Defined.

(** ** The retry loop in general *)

Definition is_sleep (e : Effects.effect) : bool :=
  match e with Effects.Sleep _ => true | _ => false end.
Definition is_sent (e : Effects.effect) : bool :=
  match e with Effects.Print Effects.EmailSent => true | _ => false end.
Definition is_all_failed (e : Effects.effect) : bool :=
  match e with Effects.Print Effects.AllAttemptsFailed => true | _ => false end.

(** The first [k] sends fail: the loop runs [k] iterations, sleeping
    after each failure that is not the last attempt of the budget. *)
Lemma attempts_prefix (text html : str) (retries : nat) (delay : N)
    (w : Effects.world) (k n a : nat) (r : Effects.run) :
  (forall i, (i < k)%nat ->
     is_Some (Effects.sendMail w (Effects.sends r + 1 + i))) ->
  exists tr,
    FailedReport.attempts text html retries delay (k + n) a w r
    = FailedReport.attempts text html retries delay n (a + k) w
        (Effects.Run (Effects.trace r ++ tr) (Effects.sends r + k))
    /\ occurrences is_send tr = k
    /\ occurrences is_sleep tr = (k `min` (retries - a))%nat
    /\ occurrences is_sent tr = 0%nat
    /\ occurrences is_all_failed tr = 0%nat.
Proof.
  revert a r. induction k as [|k IH]; intros a r Hfail.
  - exists []. rewrite app_nil_r, !Nat.add_0_r. destruct r. by cbn.
  - destruct (Hfail 0%nat) as [e He]; [lia|].
    rewrite Nat.add_0_r, Nat.add_1_r in He.
    cbn [Nat.add]. rewrite (attempts_failure _ _ _ _ _ _ _ _ e He).
    destruct (IH (S a)
                (Effects.Run
                   (Effects.trace r ++ failed_attempt text html retries delay a e)
                   (S (Effects.sends r)))) as (tr & -> & H1 & H2 & H3 & H4).
    { intros i Hi. cbn [Effects.sends].
      replace (S (Effects.sends r) + 1 + i)%nat
        with (Effects.sends r + 1 + S i)%nat by lia.
      apply Hfail. lia. }
    exists (failed_attempt text html retries delay a e ++ tr).
    cbn [Effects.trace Effects.sends].
    rewrite <- app_assoc, !occurrences_app, H1, H2, H3, H4.
    replace (S a + k)%nat with (a + S k)%nat by lia.
    replace (S (Effects.sends r) + k)%nat with (Effects.sends r + S k)%nat by lia.
    split; [done|]. unfold failed_attempt.
    destruct (Nat.ltb_spec a retries);
      rewrite ?occurrences_app, !occurrences_cons; cbn -[Nat.min Nat.sub];
      repeat split; lia.
Qed.

(** X22.  When the first [k] sends fail and the next one succeeds, with
    [k] below the budget, the loop sends [k + 1] times, sleeps [k] times,
    ends on the confirmation and never prints the final failure. *)
Theorem retry_succeeds_within_budget (text html : str) (retries k : nat)
    (delay : N) (w : Effects.world) (tr0 : list Effects.effect) :
  (k < retries)%nat ->
  (forall i, (i < k)%nat -> is_Some (Effects.sendMail w (1 + i))) ->
  Effects.sendMail w (1 + k) = None ->
  exists tr,
    FailedReport.sendEmailWithRetry text html retries delay w (Effects.Run tr0 0)
    = (inl (), Effects.Run (tr0 ++ tr) (k + 1))
    /\ occurrences is_send tr = (k + 1)%nat
    /\ occurrences is_sleep tr = k
    /\ occurrences is_all_failed tr = 0%nat
    /\ last tr = Some (Effects.Print Effects.EmailSent).
Proof.
  intros Hk Hfail Hok.
  destruct (attempts_prefix text html retries delay w k (retries - k) 1
              (Effects.Run tr0 0) Hfail) as (tr & E & H1 & H2 & H3 & H4).
  replace (k + (retries - k))%nat with retries in E by lia.
  unfold FailedReport.sendEmailWithRetry, mbind, Effects.M_bind. rewrite E.
  destruct (retries - k)%nat as [|n] eqn:En; [lia|].
  rewrite attempts_success by (cbn [Effects.sends Nat.add]; exact Hok).
  cbn [Effects.trace Effects.sends].
  exists (tr ++ [Effects.SendMail text html; Effects.Print Effects.EmailSent]).
  rewrite <- app_assoc, !occurrences_app, !occurrences_cons, H1, H2, H4.
  cbn. replace (S k) with (k + 1)%nat by lia.
  repeat split; try lia.
  change [Effects.SendMail text html; Effects.Print Effects.EmailSent]
    with ([Effects.SendMail text html] ++ [Effects.Print Effects.EmailSent]).
  rewrite app_assoc. apply last_snoc.
Qed.

(** X23.  When every send of the budget fails, the loop sends as often as
    the budget says, sleeps between the attempts only, prints the final
    failure last and returns; with a budget of zero it sends nothing. *)
Theorem retry_exhausts_budget (text html : str) (retries : nat)
    (delay : N) (w : Effects.world) (tr0 : list Effects.effect) :
  (forall i, (i < retries)%nat -> is_Some (Effects.sendMail w (1 + i))) ->
  exists tr,
    FailedReport.sendEmailWithRetry text html retries delay w (Effects.Run tr0 0)
    = (inl (), Effects.Run (tr0 ++ tr) retries)
    /\ occurrences is_send tr = retries
    /\ occurrences is_sleep tr = (retries - 1)%nat
    /\ occurrences is_sent tr = 0%nat
    /\ last tr = Some (Effects.Print Effects.AllAttemptsFailed).
Proof.
  intros Hfail.
  destruct (attempts_prefix text html retries delay w retries 0 1
              (Effects.Run tr0 0) Hfail) as (tr & E & H1 & H2 & H3 & H4).
  rewrite Nat.add_0_r in E.
  unfold FailedReport.sendEmailWithRetry, mbind, Effects.M_bind. rewrite E.
  rewrite attempts_done. unfold Effects.print, Effects.emit.
  cbn [Effects.trace Effects.sends Nat.add].
  exists (tr ++ [Effects.Print Effects.AllAttemptsFailed]).
  rewrite <- app_assoc, !occurrences_app, !occurrences_cons, H1, H2, H3.
  cbn. repeat split; try lia. apply last_snoc.
Qed.

Lemma retry_succeeds_within_budget_witness :
  exists tr,
    FailedReport.sendEmailWithRetry [] [] 5 1000 three_failures
      (Effects.Run [] 0)
    = (inl (), Effects.Run ([] ++ tr) (3 + 1))
    /\ occurrences is_sleep tr = 3%nat.
Proof.
  destruct (retry_succeeds_within_budget [] [] 5 3 1000 three_failures [])
    as (tr & H1 & _ & H3 & _).
  - lia.
  - intros i Hi. cbn.
    destruct i as [|[|[|i]]]; [by eexists|by eexists|by eexists|lia].
  - reflexivity.
  - by exists tr.
Defined.

Lemma retry_exhausts_budget_witness :
  exists tr,
    FailedReport.sendEmailWithRetry [] [] 2 1000 three_failures
      (Effects.Run [] 0)
    = (inl (), Effects.Run ([] ++ tr) 2)
    /\ occurrences is_sleep tr = 1%nat.
Proof.
  destruct (retry_exhausts_budget [] [] 2 1000 three_failures [])
    as (tr & H1 & _ & H3 & _).
  - intros i Hi. cbn. destruct i as [|[|i]]; [by eexists|by eexists|lia].
  - by exists tr.
Defined.

(** ** The records of the two reporters *)

Section RecordExtras.
Import Playwright.
Variable basename : str -> str.
Variable show : N -> str.

(** The entries the failures-only reporter stores for an event *)
Definition entries_of (ev : TestCase * TestResult) : list FailedReport.entry :=
  if bool_decide (status ev.2 = failed)
  then map (failed_entry basename show ev.1 ev.2) (errors ev.2)
  else [].

Lemma failed_onTestEnd_entries (ev : TestCase * TestResult)
    (m : list (str * list FailedReport.entry)) :
  (FailedReport.onTestEnd basename show ev.1 ev.2 m).1
  = Map_push m (failed_group ev.1) (entries_of ev).
Proof.
  unfold entries_of. case_bool_decide as Hs.
  - by rewrite failed_onTestEnd.
  - by rewrite failed_onTestEnd_other.
Qed.

Lemma Map_push_lookup {V : Type} (m : list (str * list V)) (k k' : str)
    (vs : list V) :
  Map_get (Map_push m k vs) k'
  = match vs with
    | [] => Map_get m k'
    | _ :: _ => if decide (k = k') then Some (default [] (Map_get m k) ++ vs)
                else Map_get m k'
    end.
Proof.
  destruct vs as [|v vs]; [done|]. case_decide as H.
  - subst. apply Map_push_get.
  - by apply Map_push_get_ne.
Qed.

Lemma failed_fold_group (events : list (TestCase * TestResult)) (name : str)
    (acc : list (str * list FailedReport.entry) * list Tags.warning) :
  Map_get (failed_fold basename show events acc).1 name
  = match concat (map entries_of
             (filter (fun ev => failed_group ev.1 = name) events)) with
    | [] => Map_get acc.1 name
    | e :: es => Some (default [] (Map_get acc.1 name) ++ e :: es)
    end.
Proof.
  revert acc. induction events as [|ev events IH]; intros acc; [done|].
  unfold failed_fold in *. cbn [fold_left].
  pose proof (failed_onTestEnd_entries ev acc.1) as Hstep.
  destruct (FailedReport.onTestEnd basename show ev.1 ev.2 acc.1)
    as [tests' warns] eqn:E.
  rewrite IH. cbn [fst] in *. subst tests'.
  destruct (decide (failed_group ev.1 = name)) as [Hg|Hg].
  - rewrite filter_cons_True by done. cbn [map concat].
    destruct (entries_of ev) as [|e es] eqn:Ee; [done|].
    rewrite Map_push_lookup, decide_True by done.
    cbn [default from_option id app]. rewrite Hg.
    destruct (concat _) as [|e' es']; [by rewrite app_nil_r|].
    by rewrite <- app_assoc.
  - rewrite filter_cons_False by done.
    destruct (entries_of ev) as [|e es]; [done|].
    by rewrite Map_push_lookup, decide_False.
Qed.

(** X24.  In the failures-only reporter the group of a suite holds, in
    the order of the events and then of the errors, one entry per recorded
    error of each failed test of the suite; a suite without such an error
    has no group. *)
Theorem failed_group_holds_the_errors_of_its_suite
    (events : list (TestCase * TestResult)) (name : str) :
  Map_get (FailedReport.ingest basename show events).1 name
  = match concat (map entries_of
             (filter (fun ev => failed_group ev.1 = name) events)) with
    | [] => None
    | e :: es => Some (e :: es)
    end.
Proof.
  change (FailedReport.ingest basename show events)
    with (failed_fold basename show events ([], [])).
  rewrite failed_fold_group. by destruct (concat _).
Qed.

(** X25.  A record of the full-run reporter carries its three error
    fields together, and carries them exactly when the test failed with at
    least one recorded error. *)
Theorem error_fields_only_for_failures_with_errors
    (test : TestCase) (result : TestResult) :
  let r := full_record basename show test result in
  (is_Some (FullReport.rawError r)
   <-> status result = failed /\ errors result <> [])
  /\ (is_Some (FullReport.rawError r) <-> is_Some (FullReport.expected r))
  /\ (is_Some (FullReport.rawError r) <-> is_Some (FullReport.actual r)).
Proof.
  cbn zeta. unfold full_record. case_bool_decide as Hs.
  - destruct (errors result) as [|e0 es0 _] using rev_ind.
    + cbn. split; [|done]. split; [by intros [x Hx]|by intros [_ H]].
    + rewrite full_errors_last. cbn. split; [|split; split; by eexists].
      split; [|by eexists]. intros _. split; [done|].
      intros H. by apply app_eq_nil in H as [_ H].
  - cbn. split; [|done]. split; [by intros [x Hx]|by intros [H _]].
Qed.
End RecordExtras.
